(** * A shallow embedding of the http-server dispatch engine

    The source is TypeScript for Deno: [Middleware] (the guarded-handler
    wrapper) and the class [Server] with [listen], [#run], [on], [use] and
    [static].  Handlers are user code; the wrapper and the chain driver are
    [async] functions, so the order in which their continuations run is
    decided by the microtask queue.  The embedding keeps that queue
    explicit: every [await] of the source becomes a suspended frame, and a
    scheduler fires the frames first-in first-out. *)

From stdpp Require Import base gmap strings list.
From Stdlib Require Import ZArith Lia Ascii.
From Stdlib Require String.

Open Scope Z_scope.

(** * Data model *)

(** The payload handed to [respond]: the static handler passes either
    [{ body, headers }] or [{ status: 404 }]. *)
Record Response := mkResponse {
  res_status : option Z;
  res_body : option string;
  res_headers : list (string * string);
}.

(** What user code does inside a handler [(event, next) => ...]: a finite
    script of these actions.  [Tick] is an [await] of something that is
    already settled (one turn of the microtask queue), [CallNext] is
    [next()] whose promise is dropped, [AwaitNext] is [await next()]. *)
Inductive action :=
| CallNext
| AwaitNext
| Respond (r : Response)
| Tick.

Definition Script := list action.

(** Modelled from the spec: [RequestEvent] lives in event/event.ts, which is
    not part of the sources at hand.  It carries the request method, the
    target URL and a mutable resolved-route string; the immutable part is
    this record, the mutable [route] is a field of the run state. *)
Record RequestEvent := mkEvent {
  ev_method : string;
  ev_href : string;
}.

(** [type Handler = (event, next) => void | Promise<void>]: the script a
    handler runs may depend on the request. *)
Definition Handler := RequestEvent → Script.

(** The closure returned by [Middleware(method, route, handler)] is
    determined by the three values it captured. *)
Record GuardedHandler := mkGuarded {
  g_method : string;
  g_route : string;
  g_handler : Handler;
}.

(** Instrumentation: what an observer of one dispatch sees. *)
Inductive obs :=
| Tested (pos : Z) (g : GuardedHandler)    (* the wrapper at [pos] was called *)
| Invoked (pos : Z) (g : GuardedHandler)   (* its inner handler was called *)
| Returned (pos : Z) (matched : bool).

(** Suspended [async] frames.  Each promise of the source has exactly one
    awaiter, which subscribes right after the call that produced the
    promise returns; a frame therefore carries the frame that waits for it.
    - [KHandler]: a handler stopped at an [await], with the rest of its
      script, whether its [next] is the real closure, and the wrapper frame
      awaiting the handler;
    - [KMiddleware]: the wrapper after [await handler(event, next)], with
      the driver frame awaiting the wrapper;
    - [KNext]: the driver closure of [next(index)] after
      [await handlers[index + 1](...)], with the handler awaiting it when the
      handler wrote [await next()];
    - [KNone]: nobody awaits (the promise was dropped, as in [next()]). *)
Inductive task :=
| KNone
| KHandler (pos : Z) (rest : Script) (nx : bool) (k : task)
| KMiddleware (pos : Z) (k : task)
| KNext (index : Z) (k : task).

(** The state of one dispatch. *)
Record state := mkState {
  used : gset Z;               (* [used] of [#run] *)
  route : string;              (* [event.route] *)
  responded : bool;            (* [responded] of [listen] *)
  sent : list Response;        (* calls of [respondWith] *)
  trace : list obs;
  queue : list task;           (* the microtask queue *)
}.

(** Field updates of the run state. *)

Definition set_used (f : gset Z → gset Z) (st : state) : state :=
  mkState (f (used st)) (route st) (responded st) (sent st) (trace st) (queue st).
Definition set_route (r : string) (st : state) : state :=
  mkState (used st) r (responded st) (sent st) (trace st) (queue st).
Definition observe (o : obs) (st : state) : state :=
  mkState (used st) (route st) (responded st) (sent st) (trace st ++ [o]) (queue st).
Definition enqueue (t : task) (st : state) : state :=
  mkState (used st) (route st) (responded st) (sent st) (trace st) (queue st ++ [t]).
Definition set_queue (q : list task) (st : state) : state :=
  mkState (used st) (route st) (responded st) (sent st) (trace st) q.

(** Settling a promise schedules the frame that awaits it, if there is one. *)
Definition settle (k : task) (st : state) : state :=
  match k with
  | KNone => st
  | _ => enqueue k st
  end.

(** [Server.listen], the once-only response callback:
    [(response) => { if (responded) return null; respondWith(response);
    responded = true; }].  [event.respond(payload)] of a handler ends in this
    callback. *)
Definition respond (r : Response) (st : state) : state :=
  if responded st then st
  else mkState (used st) (route st) true (sent st ++ [r]) (trace st) (queue st).

(** The wrappers that were called, and the inner handlers that were called, in
    the order of the calls. *)
Definition tested (st : state) : list (Z * GuardedHandler) :=
  omap (λ o, match o with Tested p g => Some (p, g) | _ => None end) (trace st).

Definition invoked (st : state) : list (Z * GuardedHandler) :=
  omap (λ o, match o with Invoked p g => Some (p, g) | _ => None end) (trace st).

(** * Strings as the source uses them *)

(** [s.split(sep)] for a one-character separator: never empty, [""] for the
    empty string. *)
Fixpoint split_on (sep : ascii) (s : string) : list string :=
  match s with
  | EmptyString => [EmptyString]
  | String c s' =>
      if Ascii.eqb c sep then EmptyString :: split_on sep s'
      else match split_on sep s' with
           | h :: t => String c h :: t
           | [] => [String c EmptyString]
           end
  end.

(** [l.at(-1) ?? ''] *)
Definition at_last (l : list string) : string := List.last l EmptyString.

(** [l.join(sep)] *)
Fixpoint join (sep : string) (l : list string) : string :=
  match l with
  | [] => EmptyString
  | [x] => x
  | x :: l' => x +:+ sep +:+ join sep l'
  end.

(** Whether the character [c] occurs in [s]. *)
Fixpoint occurs (c : ascii) (s : string) : bool :=
  match s with
  | EmptyString => false
  | String c' s' => Ascii.eqb c' c || occurs c s'
  end.

(** [s.replace(/\/+/g, '/')] *)
Fixpoint collapse_slashes (s : string) : string :=
  match s with
  | EmptyString => EmptyString
  | String c s' =>
      if Ascii.eqb c "/"
      then match s' with
           | String c' _ =>
               if Ascii.eqb c' "/" then collapse_slashes s'
               else String c (collapse_slashes s')
           | EmptyString => String c EmptyString
           end
      else String c (collapse_slashes s')
  end.

(** [s.replace(/^\//, '')] *)
Definition strip_leading_slash (s : string) : string :=
  match s with
  | String c s' => if Ascii.eqb c "/" then s' else s
  | EmptyString => s
  end.

(** [route.replace(/\/?\*?$/, '/*')]: the leftmost match of the pattern is
    the longest of the suffixes "/*", "*", "/" and "" the string ends with. *)
Definition replace_tail (route : string) : string :=
  let r := rev (String.list_ascii_of_string route) in
  let kept :=
    match r with
    | "*"%char :: "/"%char :: t => t
    | "*"%char :: t => t
    | "/"%char :: t => t
    | _ => r
    end in
  String.string_of_list_ascii (rev kept) +:+ "/*".

(** Whether [s] contains two slashes in a row. *)
Fixpoint double_slash (s : string) : bool :=
  match s with
  | EmptyString => false
  | String c s' =>
      match s' with
      | String c' _ => (Ascii.eqb c "/" && Ascii.eqb c' "/") || double_slash s'
      | EmptyString => false
      end
  end.

(** Whether [s] is empty or ends with a character other than [/] and [*]. *)
Definition ends_plain (s : string) : bool :=
  match rev (String.list_ascii_of_string s) with
  | c :: _ => negb (Ascii.eqb c "/") && negb (Ascii.eqb c "*")
  | [] => true
  end.

(** * The platform's URL and URLPattern, for the inputs the server sees *)

(** [new URL(href).pathname] for an absolute [http:] URL without dot segments
    or escapes: the text from the third slash up to [?] or [#], and "/" when
    there is no third slash. *)
Fixpoint from_path (slashes : nat) (s : string) : string :=
  match s with
  | EmptyString => "/"
  | String c s' =>
      if Ascii.eqb c "/"
      then match slashes with
           | O => s
           | S n => from_path n s'
           end
      else from_path slashes s'
  end.

(** The part of [s] before the first [?] or [#]. *)
Fixpoint until_query (s : string) : string :=
  match s with
  | EmptyString => EmptyString
  | String c s' =>
      if Ascii.eqb c "?" || Ascii.eqb c "#" then EmptyString
      else String c (until_query s')
  end.

(** [new URL(href).pathname] *)
Definition pathname (href : string) : string := until_query (from_path 2 href).

(** A pathname pattern made of literal characters and the wildcard [*],
    which stands for any run of characters; the pattern must match the
    whole pathname.  Named groups, modifiers and regular-expression groups
    of URLPattern are outside this fragment. *)
Fixpoint glob (p s : list ascii) {struct p} : bool :=
  match p with
  | [] => match s with [] => true | _ => false end
  | c :: p' =>
      if Ascii.eqb c "*"
      then (fix star (s : list ascii) : bool :=
              glob p' s || match s with
                           | [] => false
                           | _ :: s' => star s'
                           end) s
      else match s with
           | c' :: s' => Ascii.eqb c c' && glob p' s'
           | [] => false
           end
  end.

(** [new URLPattern({ pathname: route }).test(href)]: every component but
    the pathname is a wildcard. *)
Definition URLPattern_test (route href : string) : bool :=
  glob (String.list_ascii_of_string route)
       (String.list_ascii_of_string (pathname href)).

(** * [Server]: registration and the static file handler *)

(** [Middleware(method, route, handler)] *)
Definition Middleware (method route : string) (handler : Handler) : GuardedHandler :=
  mkGuarded method route handler.

(** Modelled from the spec: [Router] lives in router.ts, which is not part of
    the sources at hand; a router owns an ordered sequence of guarded
    handlers, which [handlers()] returns. *)
Record Router := mkRouter {
  rt_handlers : list GuardedHandler;
}.

(** The arguments of the function [use] returns: [Handler[] | Router[]]. *)
Inductive use_args :=
| Handlers (hs : list Handler)
| Routers (rs : list Router).

(** The two handler lists of [class Server]. *)
Record Server := mkServer {
  middleware : list GuardedHandler;   (* [#middleware] *)
  listeners : list GuardedHandler;    (* [#listeners] *)
}.

(** [new Server()] *)
Definition new_server : Server := mkServer [] [].

(** [server.on(route, method)(...handlers)] *)
Definition on (route method : string) (hs : list Handler) (s : Server) : Server :=
  mkServer (middleware s) (listeners s ++ map (Middleware method route) hs).

(** [server.use(route, method)(...handlers)] *)
Definition use (route method : string) (args : use_args) (s : Server) : Server :=
  match args with
  | Routers rs => mkServer (middleware s ++ flat_map rt_handlers rs) (listeners s)
  | Handlers hs =>
      mkServer (middleware s ++ map (Middleware method route) hs) (listeners s)
  end.

(** [const handlers = [...this.#middleware, ...this.#listeners]] *)
Definition chain (s : Server) : list GuardedHandler :=
  middleware s ++ listeners s.

Section Static.

(** [Deno.cwd()]. *)
Variable cwd : string.

(** Modelled from the spec: the table [CONTENT_TYPES] lives in constants.ts,
    which is not part of the sources at hand.  It is kept abstract: a lookup
    [CONTENT_TYPES[key]] yields a content type, or nothing where the source
    gets [undefined]. *)
Variable CONTENT_TYPES : string → option string.

(** [fetch] of a [file:] URL followed by [arrayBuffer()]: the bytes of the
    file, or a failure. *)
Variable fetch : string → option string.

(** [`/${route.replace(/\/?\*?$/, '/*')}`.replace(/\/+/g, '/')] *)
Definition static_route (route : string) : string :=
  collapse_slashes ("/" +:+ replace_tail route).

(** [route.split('/').filter((item) => item != '*' && item != '')] *)
Definition static_base (route : string) : list string :=
  filter (λ item, item ≠ "*" ∧ item ≠ "") (split_on "/" route).

(** [pathname.replace(/^\//, '').split('/').filter((_, index) => index >= base.length)] *)
Definition static_rest (route path : string) : list string :=
  drop (length (static_base route)) (split_on "/" (strip_leading_slash path)).

(** [`file://${[Deno.cwd(), root, ...rest].join('/')}`] *)
Definition static_path (route root href : string) : string :=
  "file://" +:+ join "/" ([cwd; root] ++ static_rest route (pathname href)).

(** [path.split('/').at(-1)?.split('.').at(-1) ?? ''] *)
Definition content_type_key (path : string) : string :=
  at_last (split_on "." (at_last (split_on "/" path))).

(** [CONTENT_TYPES[key] ?? 'text/plain'] *)
Definition content_type (path : string) : string :=
  default "text/plain" (CONTENT_TYPES (content_type_key path)).

(** What the handler passes to [respond]. *)
Definition static_response (route root href : string) : Response :=
  let path := static_path route root href in
  match fetch path with
  | Some bytes =>
      mkResponse None (Some bytes) [("content-type", content_type path)]
  | None => mkResponse (Some 404) None []
  end.

(** The handler [static] registers: it awaits the file, then responds. *)
Definition static_handler (route root : string) : Handler :=
  λ ev, [Tick; Respond (static_response route root (ev_href ev))].

(** [server.static(route, root)] *)
Definition static (route root : string) (s : Server) : Server :=
  let route := static_route route in
  use route "GET" (Handlers [static_handler route root]) s.

(** One call of the registration surface. *)
Inductive call :=
| COn (route method : string) (hs : list Handler)
| CUse (route method : string) (args : use_args)
| CStatic (route root : string).

(** The calls take effect in the order in which they are made. *)
Definition register (s : Server) (c : call) : Server :=
  match c with
  | COn route method hs => on route method hs s
  | CUse route method args => use route method args s
  | CStatic route root => static route root s
  end.

(** What one call appends to the middleware list, and to the listeners. *)
Definition used_by (c : call) : list GuardedHandler :=
  match c with
  | COn _ _ _ => []
  | CUse route method (Handlers hs) => map (Middleware method route) hs
  | CUse _ _ (Routers rs) => flat_map rt_handlers rs
  | CStatic route root =>
      [Middleware "GET" (static_route route)
         (static_handler (static_route route) root)]
  end.

Definition listened_by (c : call) : list GuardedHandler :=
  match c with
  | COn route method hs => map (Middleware method route) hs
  | _ => []
  end.

End Static.

(** * Requests and handlers of the scenarios *)

Definition hello : Response := mkResponse None (Some "Hello World") [].

Definition GET_hello : RequestEvent :=
  mkEvent "GET" "http://localhost:8080/hello".
Definition POST_hello : RequestEvent :=
  mkEvent "POST" "http://localhost:8080/hello".

(** [(event, next) => { next(); }] *)
Definition passes_on : Handler := λ _, [CallNext].

(** [(event, next) => { next(); next(); }] *)
Definition passes_on_twice : Handler := λ _, [CallNext; CallNext].

(** [({ respond }) => respond(hello)] *)
Definition answers : Handler := λ _, [Respond hello].

(** [async ({ respond }) => { await work; respond(hello); }] *)
Definition answers_later : Handler := λ _, [Tick; Respond hello].


(** [(event) => { log(event); }] *)
Definition logs : Handler := λ _, [].

(** [server.use()(passes_on); server.on('/hello')(answers_later)] *)
Definition rerun_server : Server :=
  on "/hello" "GET" [answers_later]
    (use "/*" "ANY" (Handlers [passes_on]) new_server).

(** [server.use()(passes_on_twice); server.on('/hello')(answers)] *)
Definition twice_server : Server :=
  on "/hello" "GET" [answers]
    (use "/*" "ANY" (Handlers [passes_on_twice]) new_server).

(** [server.use(route, 'ANY')(logHandler); server.on('/hello', 'GET')(helloHandler)] *)
Definition hello_server (route : string) (logHandler helloHandler : Handler) : Server :=
  on "/hello" "GET" [helloHandler]
    (use route "ANY" (Handlers [logHandler]) new_server).

(** * Predicates on traces, frames and scripts *)

(** The wrapper at [p] has been called. *)
Definition seen (p : Z) (l : list obs) : Prop := ∃ g, Tested p g ∈ l.

(** The wrapper at [p] has settled. *)
Definition returned (p : Z) (l : list obs) : Prop := ∃ b, Returned p b ∈ l.

(** A frame is sound for a trace when the positions it will act on have been
    tested: a handler frame its own position, the driver of [next(index)] the
    position [index + 1] it awaited. *)
Fixpoint task_ok (l : list obs) (t : task) : Prop :=
  match t with
  | KNone => True
  | KHandler pos rest nx k => 0 ≤ pos ∧ seen pos l ∧ task_ok l k
  | KMiddleware pos k => task_ok l k
  | KNext index k => -1 ≤ index ∧ seen (index + 1) l ∧ task_ok l k
  end.

(** The pattern of the wrapper tested last, [route0] before any test. *)
Definition last_route (route0 : string) (l : list (Z * GuardedHandler)) : string :=
  match last l with
  | Some (_, g) => g_route g
  | None => route0
  end.

(** [holds i t]: the driver frame of [next(i)] is [t] or waits behind [t]. *)
Fixpoint holds (i : Z) (t : task) : Prop :=
  match t with
  | KNone => False
  | KHandler _ _ _ k => holds i k
  | KMiddleware _ k => holds i k
  | KNext index k => index = i ∨ holds i k
  end.

(** A script that never calls its continuation. *)
Definition no_next (s : Script) : Prop :=
  ∀ a, a ∈ s → a ≠ CallNext ∧ a ≠ AwaitNext.

Definition awaits_next (k : task) : Prop :=
  match k with
  | KNone | KHandler _ _ _ _ => True
  | _ => False
  end.

Definition is_wrapper (pos : Z) (k : task) : Prop :=
  match k with
  | KMiddleware pos' _ => pos' = pos
  | _ => False
  end.

Definition is_driver (index : Z) (k : task) : Prop :=
  match k with
  | KNext index' _ => index' = index
  | _ => False
  end.

(** Who awaits whom: a handler is awaited by its wrapper, the wrapper at
    [pos] by the driver of [next(pos - 1)], a driver by a handler or by
    nobody; and a suspended handler at [P] has no call of its continuation
    left. *)
Fixpoint framed (P : Z) (t : task) : Prop :=
  match t with
  | KNone => True
  | KHandler pos rest nx k =>
      (pos = P → no_next rest) ∧ is_wrapper pos k ∧ framed P k
  | KMiddleware pos k => is_driver (pos - 1) k ∧ framed P k
  | KNext index k => awaits_next k ∧ framed P k
  end.

(** A driver of [next(P - 1)] that is about to fire has seen the wrapper at
    [P] settle. *)
Definition ready (P : Z) (l : list obs) (t : task) : Prop :=
  match t with
  | KNext index _ => index = P - 1 → returned P l
  | _ => True
  end.

(** ** Handlers that run to completion and call [next] at most once *)

(** A script of [respond] calls only. *)
Fixpoint quiet (s : Script) : bool :=
  match s with
  | [] => true
  | Respond _ :: rest => quiet rest
  | _ => false
  end.

(** A script without [await] and with at most one [next()]. *)
Fixpoint well_behaved (s : Script) : bool :=
  match s with
  | [] => true
  | Respond _ :: rest => well_behaved rest
  | CallNext :: rest => quiet rest
  | _ => false
  end.

(** With such handlers the queue holds two kinds of frames: a driver that
    is ready to fire, and a wrapper whose settling will make its driver
    ready. *)
Definition direct (t : task) : option Z :=
  match t with
  | KNext index KNone => Some index
  | _ => None
  end.

Definition waiting (t : task) : option Z :=
  match t with
  | KMiddleware _ (KNext index KNone) => Some index
  | _ => None
  end.

Definition shaped (t : task) : Prop := is_Some (direct t) ∨ is_Some (waiting t).

(** The drivers of the queue in the order in which they will fire: the
    ready ones, then those a wrapper still holds. *)
Definition order (q : list task) : list Z := omap direct q ++ omap waiting q.

(** [index + r - 1; ...; index + 1; index] *)
Fixpoint countdown (index : Z) (r : nat) : list Z :=
  match r with
  | O => []
  | S r' => (index + Z.of_nat r') :: countdown index r'
  end.

(** [a; a + 1; ...; a + r - 1] *)
Definition ups (a : Z) (r : nat) : list Z := (λ j, a + Z.of_nat j) <$> seq 0 r.

(** Each driver of [next(i)] fires after [i + 1] is in [used], or after the
    driver of [next(i + 1)], or it is the one that will extend the tests,
    [t] being the number of positions tested so far. *)
Definition chained (U : gset Z) (t : Z) (l : list Z) : Prop :=
  ∀ i, i ∈ l → i + 1 ∈ U ∨ i + 2 = t ∨ [i + 1; i] `sublist_of` l.

(** ** Who answers *)

(** A script that never responds. *)
Fixpoint mute (s : Script) : bool :=
  match s with
  | [] => true
  | Respond _ :: _ => false
  | _ :: rest => mute rest
  end.

(** A script whose first action, after any awaits of other things than
    [next()], is [respond(r)]. *)
Fixpoint leads (r : Response) (s : Script) : Prop :=
  match s with
  | Tick :: rest => leads r rest
  | Respond x :: _ => x = r
  | _ => False
  end.

(** The frames behind [t], while nothing has been sent ([silent]): a handler
    suspended before position [N] has no [respond] left, one suspended at
    [N] still leads to [respond(r)]; and every frame is awaited by the frame
    the code gives it. *)
Fixpoint built (N : Z) (r : Response) (silent : Prop) (t : task) : Prop :=
  match t with
  | KNone => True
  | KHandler pos rest _ k =>
      (pos < N → mute rest = true) ∧ (pos = N → silent → leads r rest) ∧
      is_wrapper pos k ∧ built N r silent k
  | KMiddleware pos k => is_driver (pos - 1) k ∧ built N r silent k
  | KNext index k => awaits_next k ∧ built N r silent k
  end.

(** A wrapper at [N] that is about to settle, and the driver that will go
    on to position [N + 1], are scheduled only once something was sent. *)
Definition exposed (N : Z) (silent : Prop) (t : task) : Prop :=
  match t with
  | KMiddleware pos _ => pos = N → ¬ silent
  | KNext index _ => index = N - 1 → ¬ silent
  | _ => True
  end.

(** A suspended run of the handler at [N]. *)
Definition owed (N : Z) (t : task) : Prop :=
  match t with
  | KHandler pos _ _ _ => pos = N
  | _ => False
  end.

(** What is sent is [r] and nothing else, it is sent after position [N] has
    been tested, and before position [N + 1] is tested. *)
Record lead (N : Z) (r : Response) (st : state) : Prop := mkLead {
  ld_sent : sent st = [] ∨ sent st = [r];
  ld_after : sent st ≠ [] → seen N (trace st);
  ld_next : seen (N + 1) (trace st) → sent st ≠ [];
  ld_used : N - 1 ∈ used st → sent st ≠ [];
  ld_queue : Forall (λ t, built N r (sent st = []) t ∧
                          exposed N (sent st = []) t) (queue st);
}.

(** While nothing has been sent although position [N] has been tested, a
    run of the handler at [N] is waiting in the queue. *)
Definition owes (N : Z) (st : state) : Prop :=
  sent st = [] → seen N (trace st) → Exists (owed N) (queue st).

(** What a call leaves behind. *)
Definition kept (N : Z) (r : Response) (st st' : state) : Prop :=
  lead N r st' ∧ owes N st' ∧ (sent st ≠ [] → sent st' ≠ []).

(** ** Handlers that await their continuation *)











(** * [Middleware] and [Server.#run] *)

Section Dispatch.

#[local] Set Warnings "-clear-no-such-hyp".

(** [new URLPattern({ pathname: route }).test(href)] (the matcher is a
    platform collaborator), the request, the chain
    [[...this.#middleware, ...this.#listeners]] of [#run], and the value of
    [event.route] before any wrapper has run. *)
Variable patternTest : string → string → bool.
Variable event : RequestEvent.
Variable handlers : list GuardedHandler.
Variable route0 : string.

Definition isMethodPassed (method : string) : bool :=
  bool_decide (method = ev_method event) || bool_decide (method = "ANY"%string).

Definition matches (g : GuardedHandler) : bool :=
  patternTest (g_route g) (ev_href event) && isMethodPassed (g_method g).

(** The guard at the top of [next(index)]:
    [used.has(index) || !handlers[index + 1]].  [hs] is the part of
    [handlers] from position [index + 1] on. *)
Definition next_is_noop (hs : list GuardedHandler) (index : Z) (st : state) : bool :=
  bool_decide (index ∈ used st) || bool_decide (hs = []).

(** Running a handler script from its current point to its next [await]
    or to its end.  [callnext k] runs the closure the handler received as
    [next], [k] being the frame that awaits the closure's promise. *)
Fixpoint run_handler (callnext : task → state → state)
    (pos : Z) (acts : Script) (nx : bool) (kw : task) (st : state) : state :=
  match acts with
  | [] => settle kw st
  | CallNext :: rest =>
      run_handler callnext pos rest nx kw (if nx then callnext KNone st else st)
  | AwaitNext :: rest =>
      if nx then callnext (KHandler pos rest nx kw) st
      else enqueue (KHandler pos rest nx kw) st
  | Respond r :: rest => run_handler callnext pos rest nx kw (respond r st)
  | Tick :: rest => enqueue (KHandler pos rest nx kw) st
  end.

(** The wrapper returned by [Middleware(method, route, handler)], called
    with [next] and awaited by the driver frame [k]. *)
Definition call_middleware (callnext : task → state → state)
    (g : GuardedHandler) (pos : Z) (nx : bool) (k : task) (st : state) : state :=
  let st := observe (Tested pos g) (set_route (g_route g) st) in
  if patternTest (route st) (ev_href event) && isMethodPassed (g_method g)
  then run_handler callnext pos (g_handler g event) nx (KMiddleware pos k)
         (observe (Invoked pos g) st)
  else settle k (observe (Returned pos false) st).

(** The [async] closure returned by [next(index)] when the guard did not
    fire, called in state [st]; [hs] is [handlers] from [index + 1] on and
    [k] the frame awaiting the closure's promise. *)
Fixpoint closure (hs : list GuardedHandler) (index : Z)
    (k : task) (st : state) {struct hs} : state :=
  match hs with
  | [] => settle k st
  | g :: hs' =>
      if bool_decide (index ∈ used st)
      then
        let st1 := set_used (union {[index]}) st in
        let st2 := if next_is_noop hs' (index + 1) st1 then st1
                   else closure hs' (index + 1) KNone st1 in
        settle k st2
      else
        call_middleware (closure hs' (index + 1)) g (index + 1)
          (negb (next_is_noop hs' (index + 1) st)) (KNext index k) st
  end.

(** [next(index)()]. *)
Definition call_next (hs : list GuardedHandler) (index : Z) (st : state) : state :=
  if next_is_noop hs index st then st else closure hs index KNone st.

(** [handlers] from position [index + 1] on. *)
Definition handlers_from (index : Z) : list GuardedHandler :=
  drop (Z.to_nat (index + 1)) handlers.

(** Resuming one suspended frame. *)
Definition fire (t : task) (st : state) : state :=
  match t with
  | KHandler pos rest nx kw =>
      run_handler (closure (handlers_from pos) pos) pos rest nx kw st
  | KNone => st
  | KMiddleware pos k => settle k (observe (Returned pos true) st)
  | KNext index k =>
      let st1 := set_used (union {[index]}) st in
      let st2 := call_next (handlers_from (index + 1)) (index + 1) st1 in
      settle k st2
  end.

(** The microtask loop. *)
Fixpoint drain (fuel : nat) (st : state) : state :=
  match fuel with
  | O => st
  | S fuel' =>
      match queue st with
      | [] => st
      | t :: q => drain fuel' (fire t (set_queue q st))
      end
  end.

Definition init : state :=
  mkState ∅ route0 false [] [] [].

(** [#run]: [next()()] with the default [index = -1], then the microtasks
    it left behind. *)
Definition run (fuel : nat) : state :=
  drain fuel (call_next (handlers_from (-1)) (-1) init).

(** ** Invariants of a dispatch *)

(** The wrapper's first statements: the route is set and the pattern and the
    method are tested on it. *)
Definition enter (g : GuardedHandler) (pos : Z) (st : state) : state :=
  let st1 := observe (Tested pos g) (set_route (g_route g) st) in
  if matches g then observe (Invoked pos g) st1
  else observe (Returned pos false) st1.

(** Every test of position [p] is a test of [handlers[p]], comes after a
    test of every earlier position, and position 0 is tested first. *)
Definition trace_ok (l : list obs) : Prop :=
  ∀ l1 p g l2, l = l1 ++ Tested p g :: l2 →
    0 ≤ p ∧ handlers !! Z.to_nat p = Some g ∧
    (∀ q, 0 ≤ q < p → seen q l1) ∧ (p = 0 → l1 = []).

(** What holds at every point of a dispatch, whatever the handlers do. *)
Record inv (st : state) : Prop := mkInv {
  inv_trace : trace_ok (trace st);
  inv_used : ∀ i, i ∈ used st → -1 ≤ i ∧ seen (i + 1) (trace st);
  inv_queue : Forall (task_ok (trace st)) (queue st);
  inv_route : route st = last_route route0 (tested st);
  inv_invoked : invoked st = filter (λ pg, matches pg.2 = true) (tested st);
  inv_sent : length (sent st) = if responded st then 1%nat else 0%nat;
}.

(** What a call leaves behind: the invariant, and a trace that only grew. *)
Definition preserves (st st' : state) : Prop :=
  inv st' ∧ trace st `prefix_of` trace st'.

(** ** Termination of the microtask loop

    Every frame is given a weight that bounds the number of turns of the
    loop it can still cause: its own, and those of the frames it schedules. *)

Fixpoint script_cost (c : nat) (acts : Script) : nat :=
  match acts with
  | [] => 0
  | CallNext :: rest => c + 1 + script_cost c rest
  | AwaitNext :: rest => c + 1 + script_cost c rest
  | Respond _ :: rest => script_cost c rest
  | Tick :: rest => 1 + script_cost c rest
  end.

Fixpoint chain_cost (hs : list GuardedHandler) : nat :=
  match hs with
  | [] => 0
  | g :: hs' => 3 + chain_cost hs' + script_cost (chain_cost hs') (g_handler g event)
  end.

Fixpoint weight (t : task) : nat :=
  match t with
  | KNone => 1
  | KHandler pos rest nx k =>
      1 + script_cost (chain_cost (handlers_from pos)) rest + weight k
  | KMiddleware pos k => 1 + weight k
  | KNext index k => 2 + chain_cost (handlers_from (index + 1)) + weight k
  end.

Definition load (st : state) : nat := sum_list_with weight (queue st).

(** Enough turns for any dispatch over [handlers]. *)
Definition enough : nat := chain_cost handlers + 1.

(** ** Progress *)

(** Once position [p] has been tested and a handler exists at [p + 1], either
    [p + 1] has been tested too, or [p] is not yet in [used] and the driver
    frame that tested [p] is still to fire, in the queue or held by the
    running code.  Position [-1] stands for the start of the chain. *)
Definition obl (held : list task) (st : state) (p : Z) : Prop :=
  (-1 ≤ p) → (p = -1 ∨ seen p (trace st)) →
  is_Some (handlers !! Z.to_nat (p + 1)) →
  seen (p + 1) (trace st) ∨
  ((p ∉ used st) ∧ Exists (holds (p - 1)) (queue st ++ held)).

Definition live (held : list task) (st : state) : Prop := ∀ p, obl held st p.

(** ** Handlers that run to completion *)

(** What a call of the driver closure of [next(index)] adds when it tests
    [r] positions in a row: the positions from [index + 1] on, and one frame
    for each, which will fire from the last position back to the first. *)
Record grew (index : Z) (r : nat) (st st' : state) : Prop := mkGrew {
  gr_used : used st' = used st;
  gr_tested : (tested st').*1 = (tested st).*1 ++ ups (index + 1) r;
  gr_queue : ∃ qs, queue st' = queue st ++ qs ∧ Forall shaped qs ∧
                   omap direct qs ++ omap waiting qs = countdown index r;
}.

(** [respond] touches neither [used], nor the trace, nor the queue. *)
Definition same (st st' : state) : Prop :=
  used st' = used st ∧ trace st' = trace st ∧ queue st' = queue st.

(** With handlers that run to completion and call [next] at most once, the
    positions tested so far are [0; 1; ...] without a gap or a repeat, and
    the drivers in the queue fire in an order that keeps it so. *)
Record sync_inv (st : state) : Prop := mkSync {
  sy_tested : (tested st).*1 = Z.of_nat <$> seq 0 (length (tested st));
  sy_shape : Forall shaped (queue st);
  sy_nodup : NoDup (order (queue st));
  sy_range : ∀ i, i ∈ order (queue st) → i + 2 ≤ Z.of_nat (length (tested st));
  sy_used : ∀ i, i ∈ used st → i + 2 ≤ Z.of_nat (length (tested st));
  sy_chain : chained (used st) (Z.of_nat (length (tested st))) (order (queue st));
}.

(** The chain with its positions. *)
Definition numbered : list (Z * GuardedHandler) :=
  imap (λ i g, (Z.of_nat i, g)) handlers.

(** ** A handler that never calls its continuation *)

(** The handler at position [P] never calls its continuation. *)
Definition quiet_at (P : Z) : Prop :=
  ∀ g, handlers !! Z.to_nat P = Some g → no_next (g_handler g event).

(** Position [P + 1] is tested only after the wrapper at [P] has settled: the
    test can only come from the driver frame that awaited that wrapper. *)
Record slot_inv (P : Z) (st : state) : Prop := mkSlot {
  si_trace : ∀ l1 g l2, trace st = l1 ++ Tested (P + 1) g :: l2 → returned P l1;
  si_used : P - 1 ∈ used st → returned P (trace st);
  si_queue : Forall (λ t, framed P t ∧ ready P (trace st) t) (queue st);
}.

(** ** The first handler that responds *)

(** No matching handler before position [N] ever responds. *)
Definition mute_below (N : Z) : Prop :=
  ∀ (m : nat) g, handlers !! m = Some g → Z.of_nat m < N →
    matches g = true → mute (g_handler g event) = true.

(** The handler at position [N], if there is one, matches and responds with
    [r] before it calls [next] or responds with anything else. *)
Definition leads_at (N : Z) (r : Response) : Prop :=
  ∀ g, handlers !! Z.to_nat N = Some g →
    matches g = true ∧ leads r (g_handler g event).

(** ** Facts about traces, frames and lists *)

Lemma seen_app p l l' : seen p l → seen p (l ++ l').
Proof using Type. intros [g Hg]. exists g. apply elem_of_app. by left. Qed.

Lemma seen_prefix p l l' : l `prefix_of` l' → seen p l → seen p l'.
Proof using Type. intros [l2 ->]. apply seen_app. Qed.

Lemma seen_snoc p g l : seen p (l ++ [Tested p g]).
Proof using Type.
  exists g. apply elem_of_app. right. by apply list_elem_of_singleton.
Qed.

Lemma seen_snoc_inv p q g o l :
  (∀ p' g', o ≠ Tested p' g') →
  seen p (l ++ [Tested q g; o]) → p = q ∨ seen p l.
Proof using Type.
  intros Ho [g' Hin]. apply elem_of_app in Hin as [Hin|Hin].
  - right. by exists g'.
  - apply elem_of_cons in Hin as [Heq|Hin]; [left; congruence|].
    apply list_elem_of_singleton in Hin. symmetry in Hin. by apply Ho in Hin.
Qed.

Lemma task_ok_prefix l l' t : l `prefix_of` l' → task_ok l t → task_ok l' t.
Proof using Type.
  intros Hp. induction t as [|pos rest nx k IH|pos k IH|index k IH]; simpl.
  - done.
  - intros (H0 & Hs & Hk). eauto using seen_prefix.
  - auto.
  - intros (H0 & Hs & Hk). eauto using seen_prefix.
Qed.

Lemma tested_snoc st o :
  tested (observe o st) =
    tested st ++ match o with Tested p g => [(p, g)] | _ => [] end.
Proof using Type.
  unfold tested, observe; simpl. rewrite omap_app. simpl.
  destruct o; reflexivity.
Qed.

Lemma invoked_snoc st o :
  invoked (observe o st) =
    invoked st ++ match o with Invoked p g => [(p, g)] | _ => [] end.
Proof using Type.
  unfold invoked, observe; simpl. rewrite omap_app. simpl.
  destruct o; reflexivity.
Qed.

Lemma returned_prefix p l l' : l `prefix_of` l' → returned p l → returned p l'.
Proof using Type. intros [l2 ->] [b Hb]. exists b. apply elem_of_app. by left. Qed.

Lemma ready_prefix P l l' t : l `prefix_of` l' → ready P l t → ready P l' t.
Proof using Type. intros Hp. destruct t; simpl; eauto using returned_prefix. Qed.

Lemma no_next_tail a s : no_next (a :: s) → no_next s.
Proof using Type. intros H b Hb. apply H. by apply elem_of_cons; right. Qed.

Lemma countdown_range index r i :
  i ∈ countdown index r → index ≤ i < index + Z.of_nat r.
Proof using Type.
  induction r as [|r IH]; simpl; intros Hi; [by apply elem_of_nil in Hi|].
  apply elem_of_cons in Hi as [->|Hi]; [lia|]. apply IH in Hi. lia.
Qed.

Lemma countdown_NoDup index r : NoDup (countdown index r).
Proof using Type.
  induction r as [|r IH]; simpl; [constructor|].
  apply NoDup_cons. split; auto.
  intros Hi. apply countdown_range in Hi. lia.
Qed.

Lemma countdown_snoc index r :
  countdown index (S r) = countdown (index + 1) r ++ [index].
Proof using Type.
  induction r as [|r IH].
  - simpl. f_equal. lia.
  - change (countdown index (S (S r)))
      with ((index + Z.of_nat (S r)) :: countdown index (S r)).
    rewrite IH. simpl. f_equal. lia.
Qed.

Lemma countdown_chain index r i :
  i ∈ countdown index r →
  i + 1 = index + Z.of_nat r ∨ [i + 1; i] `sublist_of` countdown index r.
Proof using Type.
  induction r as [|r IH]; simpl; intros Hi; [by apply elem_of_nil in Hi|].
  apply elem_of_cons in Hi as [->|Hi]; [left; lia|]. right.
  destruct (IH Hi) as [Heq|Hsub].
  - replace (i + 1) with (index + Z.of_nat r) by lia.
    apply sublist_skip. by apply singleton_sublist_l.
  - by apply sublist_cons.
Qed.

Lemma ups_S a r : ups a (S r) = a :: ups (a + 1) r.
Proof using Type.
  unfold ups. simpl. f_equal; [lia|].
  rewrite <- fmap_S_seq, <- list_fmap_compose.
  apply list_fmap_ext. intros _ j _. simpl. lia.
Qed.

Lemma ups_app a r r' : ups a (r + r') = ups a r ++ ups (a + Z.of_nat r) r'.
Proof using Type.
  revert a. induction r as [|r IH]; intros a.
  - simpl. by rewrite Z.add_0_r.
  - change (S r + r')%nat with (S (r + r')). rewrite !ups_S, IH. simpl.
    by replace (a + 1 + Z.of_nat r) with (a + Z.of_nat (S r)) by lia.
Qed.

Lemma ups_seq r : ups 0 r = Z.of_nat <$> seq 0 r.
Proof using Type. unfold ups. apply list_fmap_ext. intros _ j _. lia. Qed.

Lemma order_app q q' :
  order (q ++ q') =
  omap direct q ++ omap direct q' ++ omap waiting q ++ omap waiting q'.
Proof using Type. unfold order. by rewrite !omap_app, <- !app_assoc. Qed.

(** ** Safety: the invariant holds throughout *)

Lemma trace_ok_snoc l o :
  trace_ok l →
  match o with
  | Tested p g =>
      0 ≤ p ∧ handlers !! Z.to_nat p = Some g ∧
      (p = 0 → l = []) ∧ (0 < p → seen (p - 1) l)
  | _ => True
  end →
  trace_ok (l ++ [o]).
Proof.
  intros Hl Ho l1 p g l2 Heq.
  destruct l2 as [|o' l2 _] using rev_ind.
  - apply (app_inj_tail l l1 o (Tested p g)) in Heq as [-> ->].
    destruct Ho as (Hp & Hg & H0 & Hprev). repeat split; auto.
    intros q Hq.
    destruct (decide (q = p - 1)) as [->|Hne]; [apply Hprev; lia|].
    destruct Hprev as [g' Hg']; [lia|].
    apply list_elem_of_split in Hg' as (la & lb & ->).
    destruct (Hl la (p - 1) g' lb eq_refl) as (_ & _ & Hq' & _).
    apply seen_app. apply Hq'. lia.
  - rewrite app_comm_cons, app_assoc in Heq.
    apply app_inj_tail in Heq as [-> _]. eapply Hl; eauto.
Qed.

Lemma inv_settle st k : inv st → task_ok (trace st) k → inv (settle k st).
Proof.
  intros [] Hk. destruct k; try assumption; constructor; simpl; auto;
    apply Forall_app; split; auto.
Qed.

Lemma trace_settle st k : trace (settle k st) = trace st.
Proof. destruct k; reflexivity. Qed.

Lemma inv_enqueue st k : inv st → task_ok (trace st) k → inv (enqueue k st).
Proof.
  intros [] Hk. constructor; simpl; auto. apply Forall_app; split; auto.
Qed.

Lemma inv_respond st r : inv st → inv (respond r st).
Proof.
  intros []. unfold respond. destruct (responded st) eqn:Hr; constructor; auto.
  - by rewrite Hr.
  - simpl. rewrite length_app, inv_sent0. reflexivity.
Qed.

Lemma trace_respond st r : trace (respond r st) = trace st.
Proof. unfold respond. destruct (responded st); reflexivity. Qed.

Lemma inv_returned st pos b : inv st → inv (observe (Returned pos b) st).
Proof.
  intros []. constructor.
  - simpl. apply trace_ok_snoc; auto.
  - simpl. intros i Hi. destruct (inv_used0 i Hi). eauto using seen_app.
  - simpl. eapply Forall_impl; eauto. intros t. apply task_ok_prefix.
    by apply prefix_app_r.
  - rewrite tested_snoc, app_nil_r. assumption.
  - rewrite tested_snoc, invoked_snoc, !app_nil_r. assumption.
  - assumption.
Qed.

Lemma inv_add_used st i :
  inv st → -1 ≤ i → seen (i + 1) (trace st) → inv (set_used (union {[i]}) st).
Proof.
  intros [] Hi Hs. constructor; auto. simpl. intros j Hj.
  apply elem_of_union in Hj as [Hj|Hj]; auto.
  apply elem_of_singleton in Hj as ->. auto.
Qed.

Lemma inv_enter st g pos :
  inv st → 0 ≤ pos → handlers !! Z.to_nat pos = Some g →
  (pos = 0 → trace st = []) → (0 < pos → seen (pos - 1) (trace st)) →
  inv (enter g pos st).
Proof.
  intros [] Hpos Hg H0 Hprev.
  assert (Hpre : ∀ o, trace st `prefix_of` (trace st ++ [Tested pos g]) ++ [o]).
  { intros o. rewrite <- app_assoc. by apply prefix_app_r. }
  unfold enter. destruct (matches g) eqn:Hm; constructor; simpl.
  all: try (apply trace_ok_snoc; [apply trace_ok_snoc|]; by auto).
  all: try (intros i Hi; destruct (inv_used0 i Hi); split; auto;
            eapply seen_prefix; by eauto).
  all: try (eapply Forall_impl; eauto; intros t; apply task_ok_prefix; by auto).
  all: try assumption.
  all: rewrite ?tested_snoc, ?invoked_snoc, ?app_nil_r; simpl.
  all: try (unfold last_route; rewrite last_snoc; reflexivity).
  all: change (tested (set_route (g_route g) st)) with (tested st);
       change (invoked (set_route (g_route g) st)) with (invoked st).
  all: rewrite filter_app, inv_invoked0, filter_cons, filter_nil; simpl.
  all: destruct (decide (matches g = true)); try congruence.
  all: rewrite ?app_nil_r; reflexivity.
Qed.

Lemma call_middleware_enter cn g pos nx k st :
  call_middleware cn g pos nx k st =
  if matches g
  then run_handler cn pos (g_handler g event) nx (KMiddleware pos k) (enter g pos st)
  else settle k (enter g pos st).
Proof.
  unfold call_middleware, enter, matches. simpl.
  destruct (patternTest (g_route g) (ev_href event) && isMethodPassed (g_method g));
    reflexivity.
Qed.

Lemma trace_enter g pos st :
  ∃ o, trace (enter g pos st) = trace st ++ [Tested pos g; o] ∧
       ∀ p' g', o ≠ Tested p' g'.
Proof.
  unfold enter. destruct (matches g); simpl; rewrite <- app_assoc;
    eexists; (split; [reflexivity|done]).
Qed.

Lemma handlers_from_cons index g hs' :
  -1 ≤ index → handlers_from index = g :: hs' →
  handlers !! Z.to_nat (index + 1) = Some g ∧ hs' = handlers_from (index + 1).
Proof.
  unfold handlers_from. intros Hi Heq. split.
  - rewrite <- (Nat.add_0_r (Z.to_nat (index + 1))), <- lookup_drop, Heq.
    reflexivity.
  - replace (Z.to_nat (index + 1 + 1)) with (S (Z.to_nat (index + 1))) by lia.
    rewrite <- drop_drop with (n1 := 1%nat) || idtac.
    change (S (Z.to_nat (index + 1))) with (1 + Z.to_nat (index + 1))%nat.
    rewrite Nat.add_comm, <- drop_drop, Heq. reflexivity.
Qed.

Lemma run_handler_inv cn pos nx :
  0 ≤ pos →
  (∀ k st, inv st → seen pos (trace st) → task_ok (trace st) k →
           preserves st (cn k st)) →
  ∀ acts kw st, inv st → seen pos (trace st) → task_ok (trace st) kw →
    preserves st (run_handler cn pos acts nx kw st).
Proof.
  intros Hpos Hcn. induction acts as [|a rest IH]; intros kw st Hinv Hseen Hkw.
  - simpl. split; [by apply inv_settle|by rewrite trace_settle].
  - destruct a; simpl.
    + destruct nx.
      * destruct (Hcn KNone st) as [Hi Hp]; simpl; auto.
        destruct (IH kw (cn KNone st)) as [Hi' Hp'];
          eauto using seen_prefix, task_ok_prefix.
        split; auto. by etrans.
      * by apply IH.
    + destruct nx.
      * apply Hcn; simpl; auto.
      * split; [apply inv_enqueue; simpl; auto|done].
    + destruct (IH kw (respond r st)) as [Hi Hp];
        rewrite ?trace_respond in *; auto using inv_respond.
      split; auto.
    + split; [apply inv_enqueue; simpl; auto|done].
Qed.

Lemma closure_inv hs :
  ∀ index k st,
    hs = handlers_from index → -1 ≤ index →
    (index = -1 → trace st = []) → (0 ≤ index → seen index (trace st)) →
    task_ok (trace st) k → inv st →
    preserves st (closure hs index k st).
Proof.
  induction hs as [|g hs' IH]; intros index k st Hhs Hidx Htop Hseen Hk Hinv.
  - simpl. split; [by apply inv_settle|by rewrite trace_settle].
  - symmetry in Hhs. apply handlers_from_cons in Hhs as [Hg Hhs']; auto.
    assert (Hcn : ∀ k' st', inv st' → seen (index + 1) (trace st') →
                  task_ok (trace st') k' →
                  preserves st' (closure hs' (index + 1) k' st')).
    { intros k' st' Hi' Hs' Hk'. apply IH; auto; lia. }
    simpl. case_bool_decide as Hused.
    + destruct (inv_used _ Hinv index Hused) as [_ Hnext].
      pose proof (inv_add_used st index Hinv Hidx Hnext) as Hinv1.
      set (st1 := set_used (union {[index]}) st) in *.
      destruct (next_is_noop hs' (index + 1) st1).
      * split; [by apply inv_settle|by rewrite trace_settle].
      * destruct (Hcn KNone st1) as [Hi Hp]; simpl; auto.
        split; [apply inv_settle; eauto using task_ok_prefix
               |by rewrite trace_settle].
    + rewrite call_middleware_enter.
      destruct (trace_enter g (index + 1) st) as (o & Ho & Hnt).
      assert (Hpre : trace st `prefix_of` trace (enter g (index + 1) st)).
      { rewrite Ho. by apply prefix_app_r. }
      assert (Hs1 : seen (index + 1) (trace (enter g (index + 1) st))).
      { rewrite Ho. exists g. set_solver. }
      assert (Hinv1 : inv (enter g (index + 1) st)).
      { apply inv_enter; auto; try lia.
        - intros ?. apply Htop. lia.
        - intros ?. replace (index + 1 - 1) with index by lia.
          apply Hseen. lia. }
      assert (Hk1 : task_ok (trace (enter g (index + 1) st)) (KNext index k)).
      { simpl. eauto using task_ok_prefix. }
      destruct (matches g).
      * destruct (run_handler_inv (closure hs' (index + 1)) (index + 1)
                    (negb (next_is_noop hs' (index + 1) st)) ltac:(lia) Hcn
                    (g_handler g event) (KMiddleware (index + 1) (KNext index k))
                    (enter g (index + 1) st)) as [Hi Hp]; auto.
        split; auto. by etrans.
      * split; [by apply inv_settle|by rewrite trace_settle].
Qed.

Lemma call_next_inv index st :
  0 ≤ index → seen index (trace st) → inv st →
  preserves st (call_next (handlers_from index) index st).
Proof.
  intros Hidx Hseen Hinv. unfold call_next.
  destruct (next_is_noop _ _ _); [by split|].
  apply closure_inv; simpl; auto; lia.
Qed.

Lemma inv_set_queue st t q :
  inv st → queue st = t :: q →
  inv (set_queue q st) ∧ task_ok (trace st) t.
Proof.
  intros [] Hq. rewrite Hq in inv_queue0.
  apply Forall_cons in inv_queue0 as [Ht Hq']. split; [constructor|]; auto.
Qed.

Lemma fire_task_inv st t :
  inv st → task_ok (trace st) t → preserves st (fire t st).
Proof.
  intros Hinv Ht. destruct t as [|pos rest nx kw|pos k|index k]; simpl in *.
  - by split.
  - destruct Ht as (Hpos & Hseen & Hkw).
    apply run_handler_inv; auto.
    intros k st' Hi Hs Hk. apply closure_inv; auto; lia.
  - split; [|rewrite trace_settle; by apply prefix_app_r].
    apply inv_settle; [by apply inv_returned|].
    eapply task_ok_prefix; [|exact Ht]. by apply prefix_app_r.
  - destruct Ht as (Hidx & Hseen & Hk).
    destruct (call_next_inv (index + 1) (set_used (union {[index]}) st))
      as [Hi Hp]; auto using inv_add_used; [lia|].
    split; [|by rewrite trace_settle].
    apply inv_settle; eauto using task_ok_prefix.
Qed.

Lemma fire_inv st t q :
  inv st → queue st = t :: q → preserves st (fire t (set_queue q st)).
Proof.
  intros Hinv Hq. destruct (inv_set_queue st t q Hinv Hq) as [Hinv' Ht].
  apply (fire_task_inv (set_queue q st) t Hinv' Ht).
Qed.

Lemma drain_inv fuel : ∀ st, inv st → preserves st (drain fuel st).
Proof.
  induction fuel as [|fuel IH]; intros st Hinv; simpl; [by split|].
  destruct (queue st) as [|t q] eqn:Hq; [by split|].
  destruct (fire_inv st t q Hinv Hq) as [Hi Hp].
  destruct (IH _ Hi) as [Hi' Hp']. split; auto. by etrans.
Qed.

Lemma inv_init : inv init.
Proof.
  constructor; simpl; auto.
  - intros l1 p g l2 Heq. by destruct l1.
  - intros i Hi. set_solver.
Qed.

Lemma run_inv fuel : inv (run fuel).
Proof.
  unfold run, call_next. destruct (next_is_noop _ _ _).
  - apply drain_inv, inv_init.
  - apply drain_inv, closure_inv; simpl; auto using inv_init; lia.
Qed.

(** ** Termination *)

Lemma weight_pos t : (1 ≤ weight t)%nat.
Proof. destruct t; simpl; lia. Qed.

Lemma load_enqueue st t : load (enqueue t st) = (load st + weight t)%nat.
Proof.
  unfold load; simpl. rewrite sum_list_with_app. simpl. lia.
Qed.

Lemma load_settle st k : (load (settle k st) ≤ load st + weight k)%nat.
Proof.
  destruct k; simpl; rewrite ?load_enqueue; simpl; lia.
Qed.

Lemma load_respond st r : load (respond r st) = load st.
Proof. unfold respond. destruct (responded st); reflexivity. Qed.

Lemma run_handler_load cn pos nx :
  let c := chain_cost (handlers_from pos) in
  (∀ k st, (load (cn k st) ≤ load st + c + weight k)%nat) →
  ∀ acts kw st,
    (load (run_handler cn pos acts nx kw st)
     ≤ load st + script_cost c acts + weight kw)%nat.
Proof.
  intros c Hcn. induction acts as [|a rest IH]; intros kw st.
  - simpl. pose proof (load_settle st kw). lia.
  - destruct a; simpl.
    + destruct nx.
      * pose proof (IH kw (cn KNone st)). pose proof (Hcn KNone st).
        simpl in *. lia.
      * pose proof (IH kw st). lia.
    + destruct nx.
      * pose proof (Hcn (KHandler pos rest true kw) st). simpl in *.
        fold c in H. lia.
      * rewrite load_enqueue. simpl. fold c. lia.
    + pose proof (IH kw (respond r st)). rewrite load_respond in *. lia.
    + rewrite load_enqueue. simpl. fold c. lia.
Qed.

Lemma closure_load hs :
  ∀ index k st,
    hs = handlers_from index → -1 ≤ index →
    (load (closure hs index k st) ≤ load st + chain_cost hs + weight k)%nat.
Proof.
  induction hs as [|g hs' IH]; intros index k st Hhs Hidx.
  - simpl. pose proof (load_settle st k). lia.
  - symmetry in Hhs. apply handlers_from_cons in Hhs as [Hg Hhs']; auto.
    simpl. case_bool_decide as Hused.
    + set (st1 := set_used (union {[index]}) st).
      destruct (next_is_noop hs' (index + 1) st1).
      * pose proof (load_settle st1 k). change (load st1) with (load st) in *.
        lia.
      * pose proof (load_settle (closure hs' (index + 1) KNone st1) k).
        pose proof (IH (index + 1) KNone st1 Hhs' ltac:(lia)).
        change (load st1) with (load st) in *. simpl in *. lia.
    + rewrite call_middleware_enter.
      assert (He : load (enter g (index + 1) st) = load st).
      { unfold enter. destruct (matches g); reflexivity. }
      destruct (matches g).
      * pose proof (run_handler_load (closure hs' (index + 1)) (index + 1)
          (negb (next_is_noop hs' (index + 1) st))) as Hrun.
        simpl in Hrun. rewrite <- Hhs' in Hrun.
        specialize (Hrun (λ k' st', IH (index + 1) k' st' Hhs' ltac:(lia))
          (g_handler g event) (KMiddleware (index + 1) (KNext index k))
          (enter g (index + 1) st)).
        simpl in Hrun. rewrite <- Hhs' in Hrun. lia.
      * pose proof (load_settle (enter g (index + 1) st) (KNext index k)).
        simpl in *. rewrite <- Hhs' in *. lia.
Qed.

Lemma fire_load t st :
  task_ok (trace st) t →
  (load (fire t st) + 1 ≤ load st + weight t)%nat.
Proof.
  intros Ht. destruct t as [|pos rest nx kw|pos k|index k]; simpl in *.
  - lia.
  - destruct Ht as (Hpos & _).
    pose proof (run_handler_load (closure (handlers_from pos) pos) pos nx
      (λ k st', closure_load _ pos k st' eq_refl ltac:(lia)) rest kw st).
    simpl in *. lia.
  - pose proof (load_settle (observe (Returned pos true) st) k).
    change (load (observe (Returned pos true) st)) with (load st) in *. lia.
  - destruct Ht as (Hidx & _).
    set (st1 := set_used (union {[index]}) st).
    pose proof (load_settle (call_next (handlers_from (index + 1)) (index + 1) st1) k).
    assert (load (call_next (handlers_from (index + 1)) (index + 1) st1)
            ≤ load st + chain_cost (handlers_from (index + 1)) + 1)%nat.
    { unfold call_next. destruct (next_is_noop _ _ _).
      - change (load st1) with (load st). lia.
      - pose proof (closure_load _ (index + 1) KNone st1 eq_refl ltac:(lia)).
        change (load st1) with (load st) in *. simpl in *. lia. }
    lia.
Qed.

Lemma drain_quiet fuel :
  ∀ st, inv st → (load st ≤ fuel)%nat → queue (drain fuel st) = [].
Proof.
  induction fuel as [|fuel IH]; intros st Hinv Hload; simpl.
  - unfold load in Hload. destruct (queue st) as [|t q]; [done|].
    simpl in Hload. pose proof (weight_pos t). lia.
  - destruct (queue st) as [|t q] eqn:Hq; [done|].
    destruct (inv_set_queue st t q Hinv Hq) as [Hinv' Ht].
    apply IH; [by apply fire_inv|].
    pose proof (fire_load t (set_queue q st) Ht).
    assert (load st = (weight t + load (set_queue q st))%nat).
    { unfold load. rewrite Hq. reflexivity. }
    lia.
Qed.

(** ** Progress: no position of the chain is left untested *)

Lemma obl_transfer held held' st st' p :
  (seen p (trace st') → seen p (trace st)) →
  (seen (p + 1) (trace st) → seen (p + 1) (trace st')) →
  (p ∈ used st' → p ∈ used st) →
  (∀ t, t ∈ queue st ++ held → holds (p - 1) t →
        ∃ t', t' ∈ queue st' ++ held' ∧ holds (p - 1) t') →
  obl held st p → obl held' st' p.
Proof.
  intros Hs Hs1 Hu Hq Ho Hp Hseen Hnext.
  destruct Ho as [?|[Hnu Hex]]; auto; [intuition|].
  right. split; [intuition|].
  apply Exists_exists in Hex as (t & Hin & Hh).
  apply Exists_exists. eauto.
Qed.

Lemma live_settle held st k : live (k :: held) st → live held (settle k st).
Proof.
  intros Hl p. specialize (Hl p). revert Hl.
  apply obl_transfer; rewrite ?trace_settle; auto; [by destruct k|].
  intros t Hin Hh. exists t. split; auto.
  destruct k; simpl; rewrite <- ?app_assoc; auto.
  set_solver.
Qed.

Lemma live_enqueue held st k : live (k :: held) st → live held (enqueue k st).
Proof.
  intros Hl p. specialize (Hl p). revert Hl.
  apply obl_transfer; auto.
  intros t Hin Hh. exists t. split; auto. simpl. by rewrite <- app_assoc.
Qed.

Lemma live_respond held st r : live held st → live held (respond r st).
Proof.
  intros Hl p. specialize (Hl p). revert Hl.
  apply obl_transfer; rewrite ?trace_respond; auto;
    unfold respond; destruct (responded st); eauto.
Qed.

Lemma live_frame held st k k' :
  (∀ i, holds i k → holds i k') → live (k :: held) st → live (k' :: held) st.
Proof.
  intros Hk Hl p. specialize (Hl p). revert Hl.
  apply obl_transfer; auto.
  intros t Hin Hh. apply elem_of_app in Hin as [Hin|Hin].
  - exists t. set_solver.
  - apply elem_of_cons in Hin as [->|Hin].
    + exists k'. split; [set_solver|auto].
    + exists t. set_solver.
Qed.

Lemma run_handler_live cn pos nx :
  0 ≤ pos →
  (∀ k st, inv st → seen pos (trace st) → task_ok (trace st) k →
           preserves st (cn k st)) →
  (∀ k st held, inv st → seen pos (trace st) → task_ok (trace st) k →
           (∀ p, p ≠ pos → obl (k :: held) st p) → live held (cn k st)) →
  ∀ acts kw st held, inv st → seen pos (trace st) → task_ok (trace st) kw →
    live (kw :: held) st → live held (run_handler cn pos acts nx kw st).
Proof.
  intros Hpos Hcn Hlive.
  induction acts as [|a rest IH]; intros kw st held Hinv Hseen Hkw Hl.
  - simpl. by apply live_settle.
  - destruct a; simpl.
    + destruct nx; [|by apply IH].
      destruct (Hcn KNone st) as [Hi Hp]; simpl; auto.
      apply IH; eauto using seen_prefix, task_ok_prefix.
      apply Hlive; simpl; auto. intros p _.
      specialize (Hl p). revert Hl. apply obl_transfer; auto.
      intros t Hin Hh. exists t. set_solver.
    + assert (Hl' : live (KHandler pos rest nx kw :: held) st).
      { revert Hl. by apply live_frame. }
      destruct nx.
      * apply Hlive; simpl; auto.
      * by apply live_enqueue.
    + apply IH; rewrite ?trace_respond; auto using inv_respond, live_respond.
    + apply live_enqueue. revert Hl. by apply live_frame.
Qed.

Lemma closure_live hs :
  ∀ index k st held,
    hs = handlers_from index → -1 ≤ index →
    (index = -1 → trace st = []) → (0 ≤ index → seen index (trace st)) →
    task_ok (trace st) k → inv st →
    (∀ p, p ≠ index → obl (k :: held) st p) →
    live held (closure hs index k st).
Proof.
  induction hs as [|g hs' IH];
    intros index k st held Hhs Hidx Htop Hseen Hk Hinv Hl.
  - simpl. apply live_settle. intros p.
    destruct (decide (p = index)) as [->|Hne]; [|by apply Hl].
    intros _ _ [g Hg]. exfalso. unfold handlers_from in Hhs.
    rewrite <- (Nat.add_0_r (Z.to_nat (index + 1))), <- lookup_drop, <- Hhs in Hg.
    done.
  - symmetry in Hhs. apply handlers_from_cons in Hhs as [Hg Hhs']; auto.
    assert (Hcn : ∀ k' st', inv st' → seen (index + 1) (trace st') →
                  task_ok (trace st') k' →
                  preserves st' (closure hs' (index + 1) k' st')).
    { intros k' st' Hi' Hs' Hk'. apply closure_inv; auto; lia. }
    assert (Hcl : ∀ k' st' held', inv st' → seen (index + 1) (trace st') →
                  task_ok (trace st') k' →
                  (∀ p, p ≠ index + 1 → obl (k' :: held') st' p) →
                  live held' (closure hs' (index + 1) k' st')).
    { intros k' st' held' Hi' Hs' Hk' Hl'. apply IH; auto; lia. }
    simpl. case_bool_decide as Hused.
    + destruct (inv_used _ Hinv index Hused) as [_ Hnext].
      pose proof (inv_add_used st index Hinv Hidx Hnext) as Hinv1.
      set (st1 := set_used (union {[index]}) st) in *.
      assert (Hl1 : live (k :: held) st1).
      { intros p. destruct (decide (p = index)) as [->|Hne].
        - intros _ _ _. by left.
        - generalize (Hl p Hne). apply obl_transfer; auto; [|eauto].
          simpl. set_solver. }
      destruct (next_is_noop hs' (index + 1) st1); [by apply live_settle|].
      destruct (Hcn KNone st1) as [Hi Hp]; simpl; auto.
      apply live_settle, Hcl; simpl; auto.
      intros p _. generalize (Hl1 p). apply obl_transfer; auto.
      intros t Hin Hh. exists t. set_solver.
    + rewrite call_middleware_enter.
      destruct (trace_enter g (index + 1) st) as (o & Ho & Hnt).
      assert (Hpre : trace st `prefix_of` trace (enter g (index + 1) st)).
      { rewrite Ho. by apply prefix_app_r. }
      assert (Hs1 : seen (index + 1) (trace (enter g (index + 1) st))).
      { rewrite Ho. exists g. set_solver. }
      assert (Hinv1 : inv (enter g (index + 1) st)).
      { apply inv_enter; auto; try lia.
        - intros ?. apply Htop. lia.
        - intros ?. replace (index + 1 - 1) with index by lia.
          apply Hseen. lia. }
      assert (Hk1 : task_ok (trace (enter g (index + 1) st)) (KNext index k)).
      { simpl. eauto using task_ok_prefix. }
      assert (Hue : used (enter g (index + 1) st) = used st).
      { unfold enter. by destruct (matches g). }
      assert (Hqe : queue (enter g (index + 1) st) = queue st).
      { unfold enter. by destruct (matches g). }
      assert (Hl1 : ∀ X, (∀ i, holds i (KNext index k) → holds i X) →
                         live (X :: held) (enter g (index + 1) st)).
      { intros X HX p. destruct (decide (p = index)) as [->|Hne].
        { intros _ _ _. by left. }
        destruct (decide (p = index + 1)) as [->|Hne1].
        { intros _ _ _. destruct (decide (index + 1 ∈ used st)) as [Hu|Hu].
          - left. destruct (inv_used _ Hinv _ Hu) as [_ Hs2].
            eauto using seen_prefix.
          - right. rewrite Hue. split; auto.
            apply Exists_exists. exists X. split; [set_solver|].
            apply HX. simpl. left. lia. }
        generalize (Hl p Hne). apply obl_transfer.
        - rewrite Ho. intros Hs. by apply seen_snoc_inv in Hs as [?|?].
        - by apply seen_prefix.
        - by rewrite Hue.
        - rewrite Hqe. intros t Hin Hh.
          apply elem_of_app in Hin as [Hin|Hin]; [exists t; set_solver|].
          apply elem_of_cons in Hin as [->|Hin]; [|exists t; set_solver].
          exists X. split; [set_solver|]. apply HX. simpl. by right. }
      destruct (matches g).
      * apply run_handler_live;
          [lia|exact Hcn|exact Hcl|exact Hinv1|exact Hs1|exact Hk1|].
        apply Hl1. simpl. auto.
      * apply live_settle, Hl1. auto.
Qed.

Lemma call_next_live index st held :
  0 ≤ index → seen index (trace st) → inv st →
  (∀ p, p ≠ index → obl (KNone :: held) st p) →
  live held (call_next (handlers_from index) index st).
Proof.
  intros Hidx Hseen Hinv Hl. unfold call_next, next_is_noop.
  case_bool_decide as Hu; simpl.
  - intros p. destruct (decide (p = index)) as [->|Hne].
    + intros _ _ _. left. by apply (inv_used _ Hinv).
    + generalize (Hl p Hne). apply obl_transfer; auto.
      intros t Hin Hh. exists t. set_solver.
  - case_bool_decide as Hnil.
    + intros p. destruct (decide (p = index)) as [->|Hne].
      * intros _ _ [g Hg]. exfalso. unfold handlers_from in Hnil.
        rewrite <- (Nat.add_0_r (Z.to_nat (index + 1))), <- lookup_drop, Hnil in Hg.
        done.
      * generalize (Hl p Hne). apply obl_transfer; auto.
        intros t Hin Hh. exists t. set_solver.
    + apply closure_live; simpl; auto; lia.
Qed.

Lemma fire_task_live st t :
  inv st → task_ok (trace st) t → live [t] st → live [] (fire t st).
Proof.
  intros Hinv Ht Hl. destruct t as [|pos rest nx kw|pos k|index k]; simpl in *.
  - intros p. generalize (Hl p). apply obl_transfer; auto.
    intros t Hin Hh. exists t. split; auto.
    apply elem_of_app in Hin as [Hin|Hin]; [set_solver|].
    apply list_elem_of_singleton in Hin as ->. done.
  - destruct Ht as (Hpos & Hseen & Hkw).
    apply run_handler_live; auto.
    + intros k st' Hi Hs Hk. apply closure_inv; auto; lia.
    + intros k st' held Hi Hs Hk Hl'. apply closure_live; auto; lia.
    + revert Hl. by apply live_frame.
  - apply live_settle.
    assert (Hl' : live [k] st) by (revert Hl; by apply live_frame).
    intros p. generalize (Hl' p).
    apply obl_transfer; simpl; eauto using seen_app.
    intros [g Hg]. exists g. set_solver.
  - destruct Ht as (Hidx & Hseen & Hk).
    pose proof (inv_add_used st index Hinv Hidx Hseen) as Hinv1.
    set (st1 := set_used (union {[index]}) st) in *.
    apply live_settle, call_next_live; auto; [lia|].
    intros p Hne. destruct (decide (p = index)) as [->|Hne'].
    { intros _ _ _. by left. }
    generalize (Hl p). apply obl_transfer; auto.
    + simpl. set_solver.
    + intros t Hin Hh. apply elem_of_app in Hin as [Hin|Hin].
      * exists t. set_solver.
      * apply list_elem_of_singleton in Hin as ->. simpl in Hh.
        destruct Hh as [?|Hh]; [lia|]. exists k. set_solver.
Qed.

Lemma drain_live fuel : ∀ st, inv st → live [] st → live [] (drain fuel st).
Proof.
  induction fuel as [|fuel IH]; intros st Hinv Hl; simpl; auto.
  destruct (queue st) as [|t q] eqn:Hq; auto.
  destruct (inv_set_queue st t q Hinv Hq) as [Hinv' Ht].
  apply IH; [by apply fire_inv|].
  apply fire_task_live; auto.
  intros p. generalize (Hl p). apply obl_transfer; auto.
  rewrite Hq. intros t' Hin Hh. exists t'. simpl. set_solver.
Qed.

Lemma run_live fuel : live [] (run fuel).
Proof.
  unfold run. apply drain_live.
  - unfold call_next. destruct (next_is_noop _ _ _); [apply inv_init|].
    apply closure_inv; simpl; auto using inv_init; lia.
  - unfold call_next, next_is_noop. simpl.
    case_bool_decide as Hu; [set_solver|]. simpl.
    case_bool_decide as Hnil.
    + intros p Hp _ [g Hg]. exfalso.
      change (handlers = []) in Hnil. rewrite Hnil in Hg. done.
    + apply closure_live; simpl; auto using inv_init; try lia.
      intros p Hne _ [?|[g' Hg']] _; [lia|]. simpl in Hg'. set_solver.
Qed.

(** A dispatch that has come to rest has tested every position. *)
Lemma quiet_all_seen st :
  queue st = [] → live [] st →
  ∀ n : nat, is_Some (handlers !! n) → seen (Z.of_nat n) (trace st).
Proof.
  intros Hq Hl. induction n as [|n IH]; intros Hn.
  - destruct (Hl (-1)) as [?|[_ Hex]]; auto; [lia|].
    rewrite Hq in Hex. by apply Exists_nil in Hex.
  - assert (Hn' : is_Some (handlers !! n)).
    { apply lookup_lt_is_Some. apply lookup_lt_is_Some in Hn. lia. }
    destruct (Hl (Z.of_nat n)) as [Hs|[_ Hex]]; auto; try lia.
    + replace (Z.to_nat (Z.of_nat n + 1)) with (S n) by lia. done.
    + replace (Z.of_nat (S n)) with (Z.of_nat n + 1) by lia. done.
    + rewrite Hq in Hex. by apply Exists_nil in Hex.
Qed.

Lemma run_quiet fuel : (enough ≤ fuel)%nat → queue (run fuel) = [].
Proof.
  intros Hf. unfold run. apply drain_quiet.
  - unfold call_next. destruct (next_is_noop _ _ _); [apply inv_init|].
    apply closure_inv; simpl; auto using inv_init; lia.
  - unfold call_next. destruct (next_is_noop _ _ _).
    + unfold load. simpl. lia.
    + pose proof (closure_load (handlers_from (-1)) (-1) KNone init eq_refl
                    ltac:(lia)) as Hc.
      unfold enough in Hf. change (handlers_from (-1)) with handlers in Hc.
      change (load init) with 0%nat in Hc. simpl in Hc.
      change (handlers_from (-1)) with handlers. lia.
Qed.

(** Every handler of the chain is tested, and the matching ones, and only
    they, are invoked. *)
Lemma run_covers fuel :
  (enough ≤ fuel)%nat →
  ∀ (n : nat) g, handlers !! n = Some g →
    (Z.of_nat n, g) ∈ tested (run fuel) ∧
    ((Z.of_nat n, g) ∈ invoked (run fuel) ↔ matches g = true).
Proof.
  intros Hf n g Hg.
  pose proof (run_inv fuel) as Hinv.
  destruct (quiet_all_seen (run fuel) (run_quiet fuel Hf) (run_live fuel) n)
    as [g' Hg']; [by eexists|].
  assert (Hin : (Z.of_nat n, g) ∈ tested (run fuel)).
  { apply list_elem_of_split in Hg' as (l1 & l2 & Heq).
    destruct (inv_trace _ Hinv l1 _ g' l2 Heq) as (_ & Hlk & _).
    rewrite Nat2Z.id, Hg in Hlk. injection Hlk as <-.
    unfold tested. rewrite Heq, omap_app. simpl. set_solver. }
  split; auto.
  rewrite (inv_invoked _ Hinv), list_elem_of_filter. simpl. tauto.
Qed.

(** ** Exactly once, for handlers that run to completion *)

Lemma grew_refl index st : grew index 0 st st.
Proof.
  constructor; auto.
  - by rewrite app_nil_r.
  - exists []. by rewrite app_nil_r.
Qed.

Lemma same_respond st x : same st (respond x st).
Proof. unfold respond. by destruct (responded st). Qed.

Lemma same_trans st1 st2 st3 : same st1 st2 → same st2 st3 → same st1 st3.
Proof. intros (? & ? & ?) (? & ? & ?). repeat split; congruence. Qed.

Lemma grew_same_r index r st st1 st2 :
  grew index r st st1 → same st1 st2 → grew index r st st2.
Proof.
  intros [] (Hu & Ht & Hq). constructor.
  - congruence.
  - unfold tested in *. by rewrite Ht.
  - by rewrite Hq.
Qed.

Lemma grew_same_l index r st0 st1 st2 :
  same st0 st1 → grew index r st1 st2 → grew index r st0 st2.
Proof.
  intros (Hu & Ht & Hq) []. constructor.
  - congruence.
  - unfold tested in *. by rewrite <- Ht.
  - by rewrite <- Hq.
Qed.

Lemma run_handler_quiet cn pos nx kw s :
  quiet s = true →
  ∀ st, ∃ st1, run_handler cn pos s nx kw st = settle kw st1 ∧ same st st1.
Proof.
  induction s as [|a s IH]; intros Hq st; simpl.
  - exists st. by split.
  - destruct a; try discriminate. simpl in Hq.
    destruct (IH Hq (respond r st)) as (st1 & -> & Hg).
    exists st1. split; auto. eapply same_trans; eauto using same_respond.
Qed.

Lemma run_handler_sync cn pos nx kw s :
  well_behaved s = true →
  ∀ st,
    (nx = true → ∀ st0, used st0 = used st →
                 ∃ r, grew pos r st0 (cn KNone st0)) →
    ∃ r st1, run_handler cn pos s nx kw st = settle kw st1 ∧
             grew pos r st st1.
Proof.
  induction s as [|a s IH]; intros Hw st Hcn; simpl.
  - exists 0%nat, st. split; auto using grew_refl.
  - destruct a; try discriminate; simpl in Hw.
    + destruct nx.
      * destruct (Hcn eq_refl st eq_refl) as [r Hg].
        destruct (run_handler_quiet cn pos true kw s Hw (cn KNone st))
          as (st1 & -> & Hs).
        exists r, st1. split; auto. eapply grew_same_r; eauto.
      * destruct (run_handler_quiet cn pos false kw s Hw st) as (st1 & -> & Hs).
        exists 0%nat, st1. split; auto.
        eapply grew_same_r; eauto using grew_refl.
    + destruct (IH Hw (respond r st)) as (r' & st1 & -> & Hg).
      * intros Hnx st0 Hu. apply Hcn; auto.
        rewrite Hu. unfold respond. by destruct (responded st).
      * exists r', st1. split; auto.
        eapply grew_same_l; eauto using same_respond.
Qed.

Lemma enter_tested g pos st :
  used (enter g pos st) = used st ∧ queue (enter g pos st) = queue st ∧
  tested (enter g pos st) = tested st ++ [(pos, g)].
Proof.
  unfold enter. destruct (matches g); repeat split;
    rewrite !tested_snoc, app_nil_r; reflexivity.
Qed.

Lemma closure_sync hs :
  ∀ index st,
    Forall (λ g, well_behaved (g_handler g event) = true) hs →
    hs ≠ [] → index ∉ used st →
    ∃ r, (1 ≤ r)%nat ∧ grew index r st (closure hs index KNone st).
Proof.
  induction hs as [|g hs' IH]; intros index st Hwb Hne Hu; [done|].
  apply Forall_cons in Hwb as [Hg Hwb].
  simpl. rewrite bool_decide_eq_false_2 by done.
  rewrite call_middleware_enter.
  destruct (enter_tested g (index + 1) st) as (Hue & Hqe & Hte).
  destruct (matches g).
  - destruct (run_handler_sync (closure hs' (index + 1)) (index + 1)
                (negb (next_is_noop hs' (index + 1) st))
                (KMiddleware (index + 1) (KNext index KNone))
                (g_handler g event) Hg (enter g (index + 1) st))
      as (r & st1 & -> & [Hu1 Ht1 (qs & Hq1 & Hs1 & Ho1)]).
    { intros Hnx st0 Hu0. unfold next_is_noop in Hnx.
      apply negb_true_iff, orb_false_iff in Hnx as [Hnu Hnil].
      apply bool_decide_eq_false in Hnu, Hnil.
      destruct (IH (index + 1) st0 Hwb Hnil) as (r & _ & Hgr); eauto.
      by rewrite Hu0, Hue. }
    exists (S r). split; [lia|].
    set (kw := KMiddleware (index + 1) (KNext index KNone)) in *.
    change (settle kw st1) with (enqueue kw st1). constructor.
    + change (used (enqueue kw st1)) with (used st1). congruence.
    + change (tested (enqueue kw st1)) with (tested st1).
      rewrite Ht1, Hte, fmap_app, ups_S, <- app_assoc. reflexivity.
    + exists (qs ++ [kw]).
      change (queue (enqueue kw st1)) with (queue st1 ++ [kw]).
      rewrite Hq1, Hqe, <- app_assoc. split; [done|]. split.
      * apply Forall_app. split; auto. apply Forall_singleton.
        right. by eexists.
      * rewrite !omap_app, countdown_snoc, <- Ho1, <- !app_assoc.
        reflexivity.
  - exists 1%nat. split; [lia|].
    change (settle (KNext index KNone) (enter g (index + 1) st))
      with (enqueue (KNext index KNone) (enter g (index + 1) st)).
    constructor.
    + done.
    + change (tested (enqueue (KNext index KNone) (enter g (index + 1) st)))
        with (tested (enter g (index + 1) st)).
      rewrite Hte, fmap_app, ups_S. reflexivity.
    + exists [KNext index KNone]. simpl. rewrite Hqe. split; [done|]. split.
      * apply Forall_singleton. left. by eexists.
      * simpl. by rewrite Z.add_0_r.
Qed.

Lemma direct_Some t i : direct t = Some i → t = KNext i KNone.
Proof.
  destruct t as [| | |index k]; try discriminate.
  destruct k; try discriminate. simpl. by intros [= ->].
Qed.

Lemma waiting_Some t i :
  waiting t = Some i → ∃ pos, t = KMiddleware pos (KNext i KNone).
Proof.
  destruct t as [| |pos k|]; try discriminate.
  destruct k as [| | |index k]; try discriminate.
  destruct k; try discriminate. simpl. intros [= ->]. eauto.
Qed.

Lemma burst_sync index r st st' :
  (1 ≤ r)%nat →
  Z.of_nat (length (tested st)) = index + 1 →
  (tested st).*1 = Z.of_nat <$> seq 0 (length (tested st)) →
  Forall shaped (queue st) → NoDup (order (queue st)) →
  (∀ i, i ∈ order (queue st) → i + 2 ≤ index + 1) →
  (∀ i, i ∈ used st → i + 2 ≤ index + 1) →
  (∀ i, i ∈ order (queue st) →
        i + 1 ∈ used st ∨ [i + 1; i] `sublist_of` order (queue st)) →
  grew index r st st' → sync_inv st'.
Proof.
  intros Hr Hlen Ht Hsh Hnd Hrange Hused Hchain [Hu Hte (qs & Hq & Hs & Ho)].
  assert (Hlen' : length (tested st') = (length (tested st) + r)%nat).
  { rewrite <- (length_fmap fst (tested st')), Hte, length_app, length_fmap.
    unfold ups. by rewrite length_fmap, length_seq. }
  set (A := omap direct (queue st)) in *. set (B := omap waiting (queue st)) in *.
  set (A' := omap direct qs) in *. set (B' := omap waiting qs) in *.
  assert (Hord : order (queue st') = A ++ A' ++ B ++ B').
  { rewrite Hq. apply order_app. }
  assert (Hold : A ++ B `sublist_of` A ++ A' ++ B ++ B').
  { apply sublist_app; [done|]. by apply sublist_inserts_l, sublist_inserts_r. }
  assert (Hnew : A' ++ B' `sublist_of` A ++ A' ++ B ++ B').
  { apply sublist_inserts_l, sublist_app; [done|]. by apply sublist_inserts_l. }
  assert (Hperm : A ++ A' ++ B ++ B' ≡ₚ (A ++ B) ++ (A' ++ B')).
  { rewrite <- !app_assoc. f_equiv. rewrite !app_assoc. f_equiv.
    apply Permutation_app_comm. }
  assert (Hmem : ∀ i, i ∈ A ++ A' ++ B ++ B' →
                      i ∈ order (queue st) ∨ i ∈ countdown index r).
  { intros i Hi. rewrite Hperm in Hi. apply elem_of_app in Hi.
    by rewrite Ho in Hi. }
  constructor.
  - rewrite Hte, Ht, Hlen', <- !ups_seq, ups_app. do 2 f_equal. lia.
  - rewrite Hq. by apply Forall_app.
  - rewrite Hord, Hperm. apply NoDup_app. split; [done|]. split.
    + intros i Hi Hi'. rewrite Ho in Hi'. apply countdown_range in Hi'.
      apply Hrange in Hi. lia.
    + rewrite Ho. apply countdown_NoDup.
  - rewrite Hord, Hlen'. intros i Hi. destruct (Hmem i Hi) as [Ho'|Hn].
    + apply Hrange in Ho'. lia.
    + apply countdown_range in Hn. lia.
  - rewrite Hu, Hlen'. intros i Hi. apply Hused in Hi. lia.
  - rewrite Hu, Hord, Hlen'. intros i Hi. destruct (Hmem i Hi) as [Ho'|Hn].
    + destruct (Hchain i Ho') as [?|Hsub]; [by left|].
      right; right. by etrans.
    + destruct (countdown_chain index r i Hn) as [Heq|Hsub].
      * right; left. lia.
      * right; right. rewrite <- Ho in Hsub. by etrans.
Qed.

Lemma chain_after_head U T i l j :
  NoDup (i :: l) → chained U T (i :: l) → j ∈ l →
  j + 1 ∈ {[i]} ∪ U ∨ j + 2 = T ∨ [j + 1; j] `sublist_of` l.
Proof.
  intros Hnd Hch Hj.
  destruct (Hch j) as [?|[?|Hsub]]; [by right|set_solver|by right; left|].
  apply sublist_cons_r in Hsub as [Hsub|(l' & Heq & Hsub)].
  - by right; right.
  - injection Heq as Heq _. left. set_solver.
Qed.

Lemma fire_sync st t q :
  Forall (λ g, well_behaved (g_handler g event) = true) handlers →
  sync_inv st → queue st = t :: q → sync_inv (fire t (set_queue q st)).
Proof.
  intros Hwb [Ht Hsh Hnd Hrange Hused Hchain] Hq.
  rewrite Hq in Hsh, Hnd, Hrange, Hchain.
  apply Forall_cons in Hsh as [Hshape Hsh].
  destruct Hshape as [[i Hd]|[i Hw]].
  - apply direct_Some in Hd as ->.
    change (order (KNext i KNone :: q)) with (i :: order q) in *.
    pose proof Hnd as Hnd'. apply NoDup_cons in Hnd' as [Hni Hndq].
    assert (Hstale : sync_inv (set_used (union {[i]}) (set_queue q st))).
    { constructor; simpl; auto.
      - intros j Hj. apply Hrange. by right.
      - intros j Hj. apply elem_of_union in Hj as [Hj|Hj]; auto.
        apply elem_of_singleton in Hj as ->. apply Hrange. by left.
      - intros j Hj. by apply (chain_after_head _ _ i). }
    simpl. unfold call_next, next_is_noop.
    destruct (bool_decide (i + 1 ∈ _) || bool_decide (_ = [])) eqn:Hnoop;
      [exact Hstale|].
    apply orb_false_iff in Hnoop as [Hnu Hnil].
    apply bool_decide_eq_false in Hnu, Hnil. simpl in Hnu.
    assert (HT : i + 2 = Z.of_nat (length (tested st))).
    { destruct (Hchain i) as [?|[?|Hsub]]; [by left|set_solver|done|].
      apply sublist_cons_r in Hsub as [Hsub|(l' & Heq & _)].
      - destruct Hni. eapply elem_of_sublist; [|exact Hsub]. set_solver.
      - injection Heq as Heq _. lia. }
    destruct (closure_sync (handlers_from (i + 1)) (i + 1)
                (set_used (union {[i]}) (set_queue q st)))
      as (r & Hr & Hgrew); auto.
    { by apply Forall_drop. }
    apply (burst_sync (i + 1) r (set_used (union {[i]}) (set_queue q st)));
      auto.
    + change (Z.of_nat (length (tested st)) = i + 1 + 1). lia.
    + intros j Hj. assert (j + 2 ≤ i + 2); [|lia].
      rewrite HT. apply Hrange. by right.
    + intros j Hj. simpl in Hj. apply elem_of_union in Hj as [Hj|Hj].
      * apply elem_of_singleton in Hj as ->. lia.
      * apply Hused in Hj. lia.
    + intros j Hj.
      destruct (chain_after_head _ _ i (order q) j Hnd Hchain Hj)
        as [?|[Heq|?]]; auto.
      destruct Hni. by replace i with j by lia.
  - apply waiting_Some in Hw as [pos ->].
    change (fire (KMiddleware pos (KNext i KNone)) (set_queue q st))
      with (enqueue (KNext i KNone)
              (observe (Returned pos true) (set_queue q st))).
    assert (Ho : order (q ++ [KNext i KNone]) =
                 order (KMiddleware pos (KNext i KNone) :: q)).
    { rewrite order_app. unfold order. simpl. by rewrite app_nil_r. }
    assert (Hte : tested (enqueue (KNext i KNone)
                    (observe (Returned pos true) (set_queue q st))) = tested st).
    { unfold tested. simpl. rewrite omap_app. simpl. by rewrite app_nil_r. }
    constructor; rewrite ?Hte; simpl; rewrite ?Ho; auto.
    apply Forall_app. split; auto. apply Forall_singleton. left. by eexists.
Qed.

Lemma drain_sync fuel :
  Forall (λ g, well_behaved (g_handler g event) = true) handlers →
  ∀ st, sync_inv st → sync_inv (drain fuel st).
Proof.
  intros Hwb. induction fuel as [|fuel IH]; intros st Hs; simpl; auto.
  destruct (queue st) as [|t q] eqn:Hq; auto.
  apply IH. by apply fire_sync.
Qed.

Lemma run_sync fuel :
  Forall (λ g, well_behaved (g_handler g event) = true) handlers →
  sync_inv (run fuel).
Proof.
  intros Hwb.
  assert (Hinit : sync_inv init).
  { constructor; simpl; auto; try constructor; try set_solver. }
  unfold run. apply drain_sync; auto.
  unfold call_next, next_is_noop.
  destruct (bool_decide (-1 ∈ _) || bool_decide (_ = [])) eqn:Hnoop; auto.
  apply orb_false_iff in Hnoop as [Hnu Hnil].
  apply bool_decide_eq_false in Hnu, Hnil.
  destruct (closure_sync (handlers_from (-1)) (-1) init) as (r & Hr & Hgrew);
    auto.
  apply (burst_sync (-1) r init); auto; simpl; try constructor;
    try (intros i Hi; by apply elem_of_nil in Hi); set_solver.
Qed.

Lemma tested_lookup st p g :
  inv st → (p, g) ∈ tested st → 0 ≤ p ∧ handlers !! Z.to_nat p = Some g.
Proof.
  intros Hinv Hin. apply list_elem_of_omap in Hin as (o & Ho & Heq).
  destruct o; try discriminate. injection Heq as -> ->.
  apply list_elem_of_split in Ho as (l1 & l2 & Hsplit).
  destruct (inv_trace _ Hinv l1 p g l2 Hsplit) as (? & ? & _). auto.
Qed.

Lemma run_tested_once fuel :
  Forall (λ g, well_behaved (g_handler g event) = true) handlers →
  (enough ≤ fuel)%nat →
  tested (run fuel) = numbered.
Proof.
  intros Hwb Hfuel.
  pose proof (run_inv fuel) as Hinv.
  pose proof (run_covers fuel Hfuel) as Hcov.
  destruct (run_sync fuel Hwb) as [Ht _ _ _ _ _].
  set (l := tested (run fuel)) in *.
  assert (Hlk : ∀ k p g, l !! k = Some (p, g) →
                         p = Z.of_nat k ∧ handlers !! k = Some g).
  { intros k p g Hk.
    assert (Hp : l.*1 !! k = Some p) by (by rewrite list_lookup_fmap, Hk).
    rewrite Ht, list_lookup_fmap in Hp.
    destruct (seq 0 (length l) !! k) as [k'|] eqn:Hseq; [|discriminate].
    apply lookup_seq in Hseq as [-> _]. injection Hp as <-.
    split; [done|].
    destruct (tested_lookup (run fuel) (Z.of_nat k) g Hinv) as [_ Hg].
    { apply list_elem_of_lookup. eauto. }
    by rewrite Nat2Z.id in Hg. }
  assert (Hlen : length l = length handlers).
  { apply Nat.le_antisymm.
    - destruct (decide (length l = 0%nat)) as [->|Hne]; [lia|].
      destruct (lookup_lt_is_Some_2 l (length l - 1)) as [[p g] Hk]; [lia|].
      apply Hlk in Hk as [_ Hg]. apply lookup_lt_Some in Hg. lia.
    - destruct (decide (length handlers = 0%nat)) as [->|Hne]; [lia|].
      destruct (lookup_lt_is_Some_2 handlers (length handlers - 1))
        as [g Hg]; [lia|].
      destruct (Hcov _ g Hg) as [Hin _].
      apply list_elem_of_lookup in Hin as [k Hk].
      pose proof (lookup_lt_Some _ _ _ Hk).
      apply Hlk in Hk as [Hk _]. lia. }
  apply list_eq. intros k. unfold numbered. rewrite list_lookup_imap.
  destruct (l !! k) as [[p g]|] eqn:Hk.
  - apply Hlk in Hk as [-> ->]. reflexivity.
  - apply lookup_ge_None in Hk. rewrite Hlen in Hk.
    apply lookup_ge_None in Hk. by rewrite Hk.
Qed.

(** ** The slot of a handler that never calls its continuation *)

Lemma slot_settle P st k :
  slot_inv P st → framed P k → ready P (trace st) k → slot_inv P (settle k st).
Proof.
  intros [] Hk Hr. destruct k; try assumption; constructor; simpl; auto;
    apply Forall_app; split; auto.
Qed.

Lemma slot_enqueue P st k :
  slot_inv P st → framed P k → ready P (trace st) k → slot_inv P (enqueue k st).
Proof.
  intros [] Hk Hr. constructor; simpl; auto. apply Forall_app; split; auto.
Qed.

Lemma slot_respond P st r : slot_inv P st → slot_inv P (respond r st).
Proof.
  intros []. unfold respond. destruct (responded st); constructor; auto.
Qed.

Lemma slot_observe P st o :
  (∀ g, o = Tested (P + 1) g → returned P (trace st)) →
  slot_inv P st → slot_inv P (observe o st).
Proof.
  intros Ho []. constructor; simpl.
  - intros l1 g l2 Heq. destruct l2 as [|o' l2 _] using rev_ind.
    + apply app_inj_tail in Heq as [Hl Heq]. rewrite <- Hl. eauto.
    + rewrite app_comm_cons, app_assoc in Heq.
      apply app_inj_tail in Heq as [Heq _]. eauto.
  - intros Hu. eapply returned_prefix; [|eauto]. by apply prefix_app_r.
  - eapply Forall_impl; eauto. intros t [Hf Hr]. split; auto.
    eapply ready_prefix; [|eauto]. by apply prefix_app_r.
Qed.

Lemma slot_enter P st g pos :
  (pos = P + 1 → returned P (trace st)) →
  slot_inv P st → slot_inv P (enter g pos st).
Proof.
  intros Hpos Hs. unfold enter.
  assert (Hs1 : slot_inv P (observe (Tested pos g) (set_route (g_route g) st))).
  { apply slot_observe.
    - intros g' Heq. injection Heq as -> _. auto.
    - destruct Hs. constructor; auto. }
  destruct (matches g); apply slot_observe; auto; discriminate.
Qed.

Lemma run_handler_slot P cn pos nx :
  0 ≤ pos →
  (∀ k st, inv st → seen pos (trace st) → task_ok (trace st) k →
           preserves st (cn k st)) →
  (∀ k st, pos ≠ P → inv st → seen pos (trace st) → task_ok (trace st) k →
           framed P k → awaits_next k → slot_inv P st → slot_inv P (cn k st)) →
  ∀ acts kw st,
    (pos = P → no_next acts) →
    inv st → seen pos (trace st) → task_ok (trace st) kw →
    framed P kw → is_wrapper pos kw → slot_inv P st →
    slot_inv P (run_handler cn pos acts nx kw st).
Proof.
  intros Hpos Hcn Hslot.
  induction acts as [|a rest IH]; intros kw st Hq Hinv Hseen Hkw Hf Hw Hs.
  - simpl. apply slot_settle; auto. by destruct kw.
  - assert (Hq' : pos = P → no_next rest) by eauto using no_next_tail.
    destruct a; simpl.
    + destruct nx; [|by apply IH].
      assert (Hne : pos ≠ P).
      { intros Heq. destruct (Hq Heq CallNext); [set_solver|done]. }
      destruct (Hcn KNone st) as [Hi Hp]; simpl; auto.
      apply IH; eauto using seen_prefix, task_ok_prefix.
      apply Hslot; simpl; auto.
    + assert (Hne : pos ≠ P).
      { intros Heq. destruct (Hq Heq AwaitNext) as [_ ?]; [set_solver|done]. }
      destruct nx.
      * apply Hslot; simpl; auto.
      * apply slot_enqueue; simpl; auto.
    + apply IH; rewrite ?trace_respond; auto using inv_respond, slot_respond.
    + apply slot_enqueue; simpl; auto.
Qed.

Lemma closure_slot P hs :
  quiet_at P →
  ∀ index k st,
    hs = handlers_from index → -1 ≤ index →
    (index = -1 → trace st = []) → (0 ≤ index → seen index (trace st)) →
    task_ok (trace st) k → inv st →
    (index = P → returned P (trace st)) →
    framed P k → awaits_next k → slot_inv P st →
    slot_inv P (closure hs index k st).
Proof.
  intros P_quiet. induction hs as [|g hs' IH];
    intros index k st Hhs Hidx Htop Hseen Hk Hinv Hret Hf Ha Hs.
  - simpl. apply slot_settle; auto. by destruct k.
  - symmetry in Hhs. apply handlers_from_cons in Hhs as [Hg Hhs']; auto.
    assert (Hcn : ∀ k' st', inv st' → seen (index + 1) (trace st') →
                  task_ok (trace st') k' →
                  preserves st' (closure hs' (index + 1) k' st')).
    { intros k' st' Hi' Hs' Hk'. apply closure_inv; auto; lia. }
    simpl. case_bool_decide as Hused.
    + destruct (inv_used _ Hinv index Hused) as [_ Hnext].
      pose proof (inv_add_used st index Hinv Hidx Hnext) as Hinv1.
      set (st1 := set_used (union {[index]}) st) in *.
      assert (Hs1 : slot_inv P st1).
      { destruct Hs. constructor; auto. simpl. intros Hu.
        apply si_used0. apply elem_of_union in Hu as [Hu|Hu]; [|done].
        apply elem_of_singleton in Hu. by rewrite Hu. }
      assert (Hrk : ready P (trace st1) k) by (by destruct k).
      destruct (next_is_noop hs' (index + 1) st1); [by apply slot_settle|].
      destruct (Hcn KNone st1) as [Hi Hp]; simpl; auto.
      apply slot_settle; auto; [|by destruct k].
      apply IH; simpl; auto; try lia.
      intros Heq. apply (si_used _ _ Hs). by replace (P - 1) with index by lia.
    + rewrite call_middleware_enter.
      destruct (trace_enter g (index + 1) st) as (o & Ho & Hnt).
      assert (Hpre : trace st `prefix_of` trace (enter g (index + 1) st)).
      { rewrite Ho. by apply prefix_app_r. }
      assert (Hs1 : seen (index + 1) (trace (enter g (index + 1) st))).
      { rewrite Ho. exists g. set_solver. }
      assert (Hinv1 : inv (enter g (index + 1) st)).
      { apply inv_enter; auto; try lia.
        - intros ?. apply Htop. lia.
        - intros ?. replace (index + 1 - 1) with index by lia.
          apply Hseen. lia. }
      assert (Hk1 : task_ok (trace (enter g (index + 1) st)) (KNext index k)).
      { simpl. eauto using task_ok_prefix. }
      assert (Hse : slot_inv P (enter g (index + 1) st)).
      { apply slot_enter; auto. intros Heq. apply Hret. lia. }
      destruct (matches g) eqn:Hm.
      * apply run_handler_slot; simpl; auto; try lia.
        -- intros k' st' Hne Hi' Hs' Hk' Hf' Ha' Hsl'.
           apply IH; auto; lia.
        -- intros Heq. apply P_quiet. by rewrite <- Heq.
        -- split; [lia|auto].
      * apply slot_settle; simpl; auto.
        intros Heq. exists false. unfold enter. rewrite Hm. simpl.
        replace (index + 1) with P by lia. set_solver.
Qed.

Lemma fire_task_slot P st t :
  quiet_at P → inv st → task_ok (trace st) t → framed P t → ready P (trace st) t →
  slot_inv P st → slot_inv P (fire t st).
Proof.
  intros P_quiet Hinv Ht Hf Hr Hs.
  destruct t as [|pos rest nx kw|pos k|index k]; simpl in *; auto.
  - destruct Ht as (Hpos & Hseen & Hkw). destruct Hf as (Hq & Hw & Hf).
    apply run_handler_slot; auto.
    + intros k st' Hi Hs' Hk. apply closure_inv; auto; lia.
    + intros k st' Hne Hi Hs' Hk Hf' Ha' Hsl'.
      apply closure_slot; auto; lia.
  - destruct Hf as [Hd Hf].
    apply slot_settle; auto.
    + apply slot_observe; auto. discriminate.
    + destruct k as [| | |index k']; simpl in *; try done.
      intros Heq. exists true. replace P with pos by lia. set_solver.
  - destruct Ht as (Hidx & Hseen & Hk). destruct Hf as [Ha Hf].
    pose proof (inv_add_used st index Hinv Hidx Hseen) as Hinv1.
    set (st1 := set_used (union {[index]}) st) in *.
    assert (Hs1 : slot_inv P st1).
    { destruct Hs. constructor; auto. simpl. intros Hu.
      destruct (decide (P - 1 = index)) as [Heq|Hne]; [auto|].
      apply si_used0. apply elem_of_union in Hu as [Hu|Hu]; [|done].
      apply elem_of_singleton in Hu. done. }
    destruct (call_next_inv (index + 1) st1) as [Hi Hp]; auto; [lia|].
    apply slot_settle; auto; [|by destruct k].
    unfold call_next. destruct (next_is_noop _ _ _); auto.
    apply closure_slot; simpl; auto; try lia.
    intros Heq. apply Hr. lia.
Qed.

Lemma drain_slot P fuel :
  quiet_at P → ∀ st, inv st → slot_inv P st → slot_inv P (drain fuel st).
Proof.
  intros P_quiet.
  induction fuel as [|fuel IH]; intros st Hinv Hs; simpl; auto.
  destruct (queue st) as [|t q] eqn:Hq; auto.
  destruct (inv_set_queue st t q Hinv Hq) as [Hinv' Ht].
  apply IH; [by apply fire_inv|].
  pose proof (si_queue _ _ Hs) as Hqs. rewrite Hq in Hqs.
  apply Forall_cons in Hqs as [[Hf Hr] Hqs].
  apply fire_task_slot; auto.
  destruct Hs. constructor; auto.
Qed.

Lemma run_slot P fuel : quiet_at P → 0 ≤ P → slot_inv P (run fuel).
Proof.
  intros P_quiet HP.
  assert (Hinit : slot_inv P init).
  { constructor; simpl; auto.
    - intros l1 g l2 Heq. by destruct l1.
    - set_solver. }
  unfold run. apply drain_slot; [exact P_quiet| |].
  - unfold call_next. destruct (next_is_noop _ _ _); [apply inv_init|].
    apply closure_inv; simpl; auto using inv_init; lia.
  - unfold call_next. destruct (next_is_noop _ _ _); auto.
    apply closure_slot; simpl; auto using inv_init; lia.
Qed.

(** ** The first handler that responds *)

Lemma seen_dec p l : seen p l ∨ ¬ seen p l.
Proof using Type.
  induction l as [|o l IH].
  - right. intros [g Hg]. by apply elem_of_nil in Hg.
  - destruct IH as [[g Hg]|Hn]; [left; exists g; by right|].
    destruct o as [p' g'|p' g'|p' b].
    + destruct (decide (p' = p)) as [->|Hne]; [left; exists g'; by left|].
      right. intros [g Hg]. apply elem_of_cons in Hg as [Hg|Hg]; [congruence|].
      apply Hn. by exists g.
    + right. intros [g Hg]. apply elem_of_cons in Hg as [Hg|Hg]; [done|].
      apply Hn. by exists g.
    + right. intros [g Hg]. apply elem_of_cons in Hg as [Hg|Hg]; [done|].
      apply Hn. by exists g.
Qed.

Lemma seen_earlier st p q :
  inv st → seen p (trace st) → 0 ≤ q ≤ p → seen q (trace st).
Proof.
  intros Hinv [g Hg] Hq.
  destruct (decide (q = p)) as [->|Hne]; [by exists g|].
  apply list_elem_of_split in Hg as (l1 & l2 & Heq).
  destruct (inv_trace _ Hinv l1 p g l2 Heq) as (_ & _ & Hprev & _).
  rewrite Heq. apply seen_app. apply Hprev. lia.
Qed.

Lemma mute_tail a s : mute (a :: s) = true → mute s = true.
Proof using Type. by destruct a. Qed.

Lemma sent_dec st : sent st = [] ∨ sent st ≠ [].
Proof using Type. destruct (sent st); [by left|by right]. Qed.

Lemma built_weaken N r (P Q : Prop) t :
  (Q → P) → built N r P t → built N r Q t.
Proof using Type.
  intros HQP. induction t as [|pos rest nx k IH|pos k IH|index k IH]; simpl.
  - done.
  - intros (Hm & Hl & Hw & Hk). auto.
  - intros [Hd Hk]. auto.
  - intros [Ha Hk]. auto.
Qed.

Lemma exposed_weaken N (P Q : Prop) t :
  (Q → P) → exposed N P t → exposed N Q t.
Proof using Type. intros HQP. destruct t; simpl; auto. Qed.

Lemma kept_trans N r st1 st2 st3 :
  kept N r st1 st2 → kept N r st2 st3 → kept N r st1 st3.
Proof using Type. intros (_ & _ & H12) (Hl & Ho & H23). split; auto. Qed.

Lemma lead_enqueue N r st k :
  lead N r st → built N r (sent st = []) k → exposed N (sent st = []) k →
  lead N r (enqueue k st).
Proof using Type.
  intros [] Hb He. constructor; simpl; auto.
  apply Forall_app. split; auto.
Qed.

Lemma lead_settle N r st k :
  lead N r st → built N r (sent st = []) k → exposed N (sent st = []) k →
  lead N r (settle k st).
Proof using Type.
  intros Hl Hb He. destruct k; try done; by apply lead_enqueue.
Qed.

Lemma owes_enqueue N st k : owes N st → owes N (enqueue k st).
Proof using Type.
  intros Ho Hs Hn. simpl. apply Exists_app. left. by apply Ho.
Qed.

Lemma owes_settle N st k : owes N st → owes N (settle k st).
Proof using Type. intros Ho. destruct k; try done; by apply owes_enqueue. Qed.

Lemma sent_settle st k : sent (settle k st) = sent st.
Proof using Type. by destruct k. Qed.

Lemma lead_set_used N r st i :
  lead N r st → (i = N - 1 → sent st ≠ []) →
  lead N r (set_used (union {[i]}) st).
Proof using Type.
  intros [] Hi. constructor; simpl; auto.
  intros Hu. apply elem_of_union in Hu as [Hu|Hu]; auto.
  apply elem_of_singleton in Hu. auto.
Qed.

Lemma lead_observe N r st o :
  (∀ g, o = Tested (N + 1) g → sent st ≠ []) →
  lead N r st → lead N r (observe o st).
Proof using Type.
  intros Ho []. constructor; simpl; auto.
  - intros Hs. by apply seen_app, ld_after0.
  - intros [g Hg]. apply elem_of_app in Hg as [Hg|Hg].
    + apply ld_next0. by exists g.
    + apply list_elem_of_singleton in Hg. symmetry in Hg. by apply Ho in Hg.
Qed.

Lemma owes_observe N st o :
  (∀ g, o ≠ Tested N g) → owes N st → owes N (observe o st).
Proof using Type.
  intros Ho Hw Hs [g Hg]. simpl in *. apply Hw; auto.
  apply elem_of_app in Hg as [Hg|Hg]; [by exists g|].
  apply list_elem_of_singleton in Hg. symmetry in Hg. by apply Ho in Hg.
Qed.

Lemma lead_enter N r st g pos :
  (pos = N + 1 → sent st ≠ []) → lead N r st → lead N r (enter g pos st).
Proof.
  intros Hpos Hl. unfold enter.
  assert (Hl1 : lead N r (observe (Tested pos g) (set_route (g_route g) st))).
  { apply lead_observe.
    - intros g' [= -> _]. by apply Hpos.
    - destruct Hl. by constructor. }
  destruct (matches g); apply lead_observe; auto; discriminate.
Qed.

Lemma owes_enter N st g pos : pos ≠ N → owes N st → owes N (enter g pos st).
Proof.
  intros Hpos Ho. unfold enter.
  assert (Ho1 : owes N (observe (Tested pos g) (set_route (g_route g) st))).
  { apply owes_observe; [intros g' [= ? _]; done|]. exact Ho. }
  destruct (matches g); apply owes_observe; auto; discriminate.
Qed.

Lemma sent_enter g pos st : sent (enter g pos st) = sent st.
Proof. unfold enter. by destruct (matches g). Qed.

Lemma lead_respond N r st x :
  inv st → lead N r st → seen N (trace st) → (sent st = [] → x = r) →
  lead N r (respond x st) ∧ sent (respond x st) ≠ [] ∧
  (sent st ≠ [] → respond x st = st).
Proof.
  intros Hinv Hl Hs Hx. pose proof (inv_sent _ Hinv) as Hlen.
  unfold respond. destruct (responded st).
  - split; [done|]. split; [|done]. intros Hnil. by rewrite Hnil in Hlen.
  - assert (Hsent : sent st = []) by (by destruct (sent st)).
    rewrite (Hx Hsent). split; [|split; [simpl; by rewrite Hsent|done]].
    destruct Hl. constructor; simpl; rewrite ?Hsent; simpl; auto.
    eapply Forall_impl; [exact ld_queue0|]. simpl. intros t [Hb He]. split.
    + eapply built_weaken; [|exact Hb]. discriminate.
    + eapply exposed_weaken; [|exact He]. discriminate.
Qed.

Lemma owes_respond N st x : owes N st → owes N (respond x st).
Proof using Type.
  intros Ho. unfold respond. destruct (responded st); [done|].
  intros Hs. simpl in Hs. by destruct (sent st).
Qed.

Lemma built_later N r st st' k :
  (sent st ≠ [] → sent st' ≠ []) →
  built N r (sent st = []) k → built N r (sent st' = []) k.
Proof using Type.
  intros Hmono. apply built_weaken. intros Hnil.
  destruct (sent_dec st) as [?|Hne]; [done|]. by apply Hmono in Hne.
Qed.

Lemma run_handler_lead N r cn pos nx :
  0 ≤ N → 0 ≤ pos →
  (∀ k st, inv st → seen pos (trace st) → task_ok (trace st) k →
           preserves st (cn k st)) →
  (∀ k st, inv st → seen pos (trace st) → task_ok (trace st) k →
           awaits_next k → built N r (sent st = []) k →
           (pos = N → sent st ≠ []) → lead N r st → owes N st →
           kept N r st (cn k st)) →
  ∀ acts kw st,
    (pos < N → mute acts = true) →
    (pos = N → sent st = [] → leads r acts) →
    inv st → seen pos (trace st) → task_ok (trace st) kw →
    is_wrapper pos kw → built N r (sent st = []) kw →
    lead N r st → (pos = N ∨ owes N st) →
    kept N r st (run_handler cn pos acts nx kw st).
Proof.
  intros HN Hpos Hcn Hlead.
  induction acts as [|a rest IH];
    intros kw st Hm Hl Hinv Hseen Hkw Hw Hb Hld Ho.
  - simpl. destruct kw as [| |pos' k|]; try done. simpl in Hw. subst pos'.
    change (settle (KMiddleware pos k) st) with (enqueue (KMiddleware pos k) st).
    split; [|split; [|done]].
    + apply lead_enqueue; [done|done|]. simpl. intros Heq Hs.
      exact (Hl Heq Hs).
    + destruct Ho as [Heq|Ho]; [|by apply owes_enqueue].
      intros Hs. by destruct (Hl Heq Hs).
  - assert (Hm' : pos < N → mute rest = true) by eauto using mute_tail.
    assert (Hloud : ∀ a', (a' = CallNext ∨ a' = AwaitNext) → a = a' →
                          pos = N → sent st ≠ []).
    { intros a' Ha' -> Heq Hs. specialize (Hl Heq Hs).
      by destruct Ha' as [->| ->]. }
    assert (Howes : ∀ a', (a' = CallNext ∨ a' = AwaitNext) → a = a' →
                          owes N st).
    { intros a' Ha' Heq. destruct Ho as [HeqN|Ho]; [|done].
      intros Hs. by destruct (Hloud a' Ha' Heq HeqN). }
    destruct a; simpl.
    + assert (Hnext : pos = N → sent st ≠ []).
      { intros Heq. by apply (Hloud CallNext); auto. }
      assert (Hrest : pos = N → sent st = [] → leads r rest).
      { intros Heq Hs. by destruct (Hnext Heq). }
      destruct nx; [|by apply IH].
      destruct (Hcn KNone st) as [Hi Hp]; simpl; auto.
      assert (Hk : kept N r st (cn KNone st)).
      { apply Hlead; simpl; auto. apply (Howes CallNext); auto. }
      eapply kept_trans; [exact Hk|]. destruct Hk as (Hl1 & Ho1 & Hmono).
      apply IH; eauto using seen_prefix, task_ok_prefix, built_later.
      intros Heq Hs. destruct (Hmono (Hnext Heq) Hs).
    + assert (Hnext : pos = N → sent st ≠ []).
      { intros Heq. by apply (Hloud AwaitNext); auto. }
      assert (Hbk : built N r (sent st = []) (KHandler pos rest nx kw)).
      { simpl. split; [done|]. split; [|done].
        intros Heq Hs. by destruct (Hnext Heq). }
      destruct nx.
      * apply Hlead; simpl; auto. apply (Howes AwaitNext); auto.
      * split; [|split; [|done]].
        -- by apply lead_enqueue.
        -- apply owes_enqueue. apply (Howes AwaitNext); auto.
    + destruct (decide (pos < N)) as [Hlt|Hge]; [by apply Hm in Hlt|].
      assert (HsN : seen N (trace st)).
      { apply (seen_earlier st pos); auto. lia. }
      destruct (lead_respond N r st r0 Hinv Hld HsN) as (Hld1 & Hne1 & Hsame).
      { intros Hs. destruct (decide (pos = N)) as [Heq|Hne].
        - by apply (Hl Heq Hs).
        - destruct (ld_next _ _ _ Hld); [|done].
          apply (seen_earlier st pos); auto. lia. }
      assert (Hk : kept N r (respond r0 st)
                     (run_handler cn pos rest nx kw (respond r0 st))).
      { apply IH; rewrite ?trace_respond; auto using inv_respond.
        - intros _ Hs. by destruct Hne1.
        - eapply built_weaken; [|exact Hb]. intros Hs. by destruct Hne1.
        - destruct Ho as [?|Ho]; [by left|right; by apply owes_respond]. }
      destruct Hk as (Hl2 & Ho2 & Hmono). split; [done|]. split; [done|].
      intros _. by apply Hmono.
    + split; [|split; [|done]].
      * apply lead_enqueue; simpl; auto.
      * destruct Ho as [Heq|Ho]; [|by apply owes_enqueue].
        intros Hs Hn. simpl. apply Exists_app. right.
        apply Exists_cons. by left.
Qed.

Lemma closure_lead N r hs :
  0 ≤ N → mute_below N → leads_at N r →
  ∀ index k st,
    hs = handlers_from index → -1 ≤ index →
    (index = -1 → trace st = []) → (0 ≤ index → seen index (trace st)) →
    task_ok (trace st) k → inv st →
    awaits_next k → built N r (sent st = []) k →
    (index = N → sent st ≠ []) → lead N r st → owes N st →
    kept N r st (closure hs index k st).
Proof.
  intros HN Hbelow Hat. induction hs as [|g hs' IH];
    intros index k st Hhs Hidx Htop Hseen Hk Hinv Ha Hb Hloud Hld Ho.
  - simpl. split; [|split; [by apply owes_settle|by rewrite sent_settle]].
    apply lead_settle; auto. by destruct k.
  - symmetry in Hhs. apply handlers_from_cons in Hhs as [Hg Hhs']; auto.
    assert (Hcn : ∀ k' st', inv st' → seen (index + 1) (trace st') →
                  task_ok (trace st') k' →
                  preserves st' (closure hs' (index + 1) k' st')).
    { intros k' st' Hi' Hs' Hk'. apply closure_inv; auto; lia. }
    assert (Hcl : ∀ k' st', inv st' → seen (index + 1) (trace st') →
                  task_ok (trace st') k' → awaits_next k' →
                  built N r (sent st' = []) k' →
                  (index + 1 = N → sent st' ≠ []) →
                  lead N r st' → owes N st' →
                  kept N r st' (closure hs' (index + 1) k' st')).
    { intros k' st' Hi' Hs' Hk' Ha' Hb' Hl' Hld' Ho'. apply IH; auto; lia. }
    assert (Hek : exposed N (sent st = []) k) by (by destruct k).
    simpl. case_bool_decide as Hused.
    + destruct (inv_used _ Hinv index Hused) as [_ Hnext].
      pose proof (inv_add_used st index Hinv Hidx Hnext) as Hinv1.
      set (st1 := set_used (union {[index]}) st) in *.
      assert (Hloud1 : index = N - 1 → sent st ≠ []).
      { intros ->. by apply (ld_used _ _ _ Hld). }
      assert (Hld1 : lead N r st1) by (by apply lead_set_used).
      destruct (next_is_noop hs' (index + 1) st1).
      * split; [|split; [by apply owes_settle|by rewrite sent_settle]].
        by apply lead_settle.
      * destruct (Hcn KNone st1) as [Hi Hp]; simpl; auto.
        destruct (Hcl KNone st1) as (Hl2 & Ho2 & Hmono); simpl; auto.
        { intros Heq. apply Hloud1. lia. }
        split; [|split; [by apply owes_settle|by rewrite sent_settle]].
        apply lead_settle; auto.
        -- eapply built_later; [|exact Hb]. exact Hmono.
        -- by destruct k.
    + rewrite call_middleware_enter.
      destruct (trace_enter g (index + 1) st) as (o & Ho' & Hnt).
      assert (Hpre : trace st `prefix_of` trace (enter g (index + 1) st)).
      { rewrite Ho'. by apply prefix_app_r. }
      assert (Hs1 : seen (index + 1) (trace (enter g (index + 1) st))).
      { rewrite Ho'. exists g. apply elem_of_app. right. by left. }
      assert (Hinv1 : inv (enter g (index + 1) st)).
      { apply inv_enter; auto; try lia.
        - intros ?. apply Htop. lia.
        - intros ?. replace (index + 1 - 1) with index by lia.
          apply Hseen. lia. }
      assert (Hk1 : task_ok (trace (enter g (index + 1) st)) (KNext index k)).
      { simpl. eauto using task_ok_prefix. }
      assert (Hld1 : lead N r (enter g (index + 1) st)).
      { apply lead_enter; auto. intros Heq. apply Hloud. lia. }
      assert (Hse : sent (enter g (index + 1) st) = sent st)
        by apply sent_enter.
      assert (Hmono : ∀ st', kept N r (enter g (index + 1) st) st' →
                             kept N r st st').
      { intros st' (? & ? & Hm'). rewrite Hse in Hm'. by split. }
      destruct (matches g) eqn:Hm.
      * apply Hmono. apply run_handler_lead; simpl; rewrite ?Hse; auto;
          try lia.
        -- intros Hlt. apply (Hbelow (Z.to_nat (index + 1))); auto. lia.
        -- intros Heq _. rewrite Heq in Hg. by destruct (Hat g Hg).
        -- split; [lia|by split].
        -- destruct (decide (index + 1 = N)) as [?|Hne]; [by left|].
           right. by apply owes_enter.
      * assert (Hne : index + 1 ≠ N).
        { intros Heq. rewrite Heq in Hg. destruct (Hat g Hg). congruence. }
        apply Hmono.
        split; [|split; [by apply owes_settle, owes_enter
                        |by rewrite sent_settle]].
        apply lead_settle; simpl; rewrite ?Hse; auto. intros Heq. lia.
Qed.

Lemma fire_task_lead N r st t :
  0 ≤ N → mute_below N → leads_at N r →
  inv st → task_ok (trace st) t →
  built N r (sent st = []) t → exposed N (sent st = []) t →
  lead N r st → (owed N t ∨ owes N st) →
  kept N r st (fire t st).
Proof.
  intros HN Hbelow Hat Hinv Ht Hb He Hld Ho.
  destruct t as [|pos rest nx kw|pos k|index k]; simpl in *.
  - split; [done|]. split; [|done]. by destruct Ho.
  - destruct Ht as (Hpos & Hseen & Hkw). destruct Hb as (Hm & Hl & Hw & Hb).
    apply run_handler_lead; auto.
    + intros k st' Hi Hs' Hk. apply closure_inv; auto; lia.
    + intros k st' Hi Hs' Hk Ha' Hb' Hl' Hld' Ho'.
      apply closure_lead; auto; lia.
  - destruct Hb as [Hd Hb]. destruct Ho as [[]|Ho].
    split; [|split; [by apply owes_settle, owes_observe|by rewrite sent_settle]].
    apply lead_settle; simpl; auto.
    + apply lead_observe; [discriminate|done].
    + destruct k as [| | |index k]; try done. simpl in *. intros Heq.
      apply He. lia.
  - destruct Ht as (Hidx & Hseen & Hk). destruct Hb as [Ha Hb].
    destruct Ho as [[]|Ho].
    pose proof (inv_add_used st index Hinv Hidx Hseen) as Hinv1.
    set (st1 := set_used (union {[index]}) st) in *.
    assert (Hld1 : lead N r st1) by (by apply lead_set_used).
    assert (Hek : exposed N (sent st = []) k) by (by destruct k).
    unfold call_next. destruct (next_is_noop _ _ _).
    + split; [|split; [by apply owes_settle|by rewrite sent_settle]].
      by apply lead_settle.
    + destruct (closure_lead N r (handlers_from (index + 1)) HN Hbelow Hat
                  (index + 1) KNone st1) as (Hl2 & Ho2 & Hmono);
        simpl; auto; try lia.
      { intros Heq. apply He. lia. }
      split; [|split; [by apply owes_settle|by rewrite sent_settle]].
      apply lead_settle; auto.
      * eapply built_later; [|exact Hb]. exact Hmono.
      * by destruct k.
Qed.

Lemma drain_lead N r fuel :
  0 ≤ N → mute_below N → leads_at N r →
  ∀ st, inv st → lead N r st → owes N st →
    lead N r (drain fuel st) ∧ owes N (drain fuel st).
Proof.
  intros HN Hbelow Hat.
  induction fuel as [|fuel IH]; intros st Hinv Hld Ho; simpl; auto.
  destruct (queue st) as [|t q] eqn:Hq; auto.
  destruct (inv_set_queue st t q Hinv Hq) as [Hinv' Ht].
  pose proof (ld_queue _ _ _ Hld) as Hqs. rewrite Hq in Hqs.
  apply Forall_cons in Hqs as [[Hb He] Hqs].
  destruct (fire_task_lead N r (set_queue q st) t) as (Hl2 & Ho2 & _); auto.
  - destruct Hld. by constructor.
  - destruct (sent_dec st) as [Hs|Hne].
    + destruct (seen_dec N (trace st)) as [Hn|Hn].
      * specialize (Ho Hs Hn). rewrite Hq in Ho.
        apply Exists_cons in Ho as [?|Ho]; [by left|]. right. by intros _ _.
      * right. intros _ Hn'. by destruct Hn.
    + right. intros Hs. by destruct Hne.
  - apply IH; auto. by apply fire_inv.
Qed.

Lemma run_lead N r fuel :
  0 ≤ N → mute_below N → leads_at N r →
  lead N r (run fuel) ∧ owes N (run fuel).
Proof.
  intros HN Hbelow Hat.
  assert (Hinit : lead N r init).
  { constructor; simpl.
    - by left.
    - intros H. by destruct H.
    - intros [g Hg]. by apply elem_of_nil in Hg.
    - intros H. by apply elem_of_empty in H.
    - constructor. }
  assert (Hoinit : owes N init).
  { intros _ [g Hg]. by apply elem_of_nil in Hg. }
  unfold run, call_next. destruct (next_is_noop _ _ _).
  - apply drain_lead; auto using inv_init.
  - destruct (closure_lead N r (handlers_from (-1)) HN Hbelow Hat
                (-1) KNone init) as (Hl & Ho & _);
      simpl; auto using inv_init; try lia.
    apply drain_lead; auto.
    apply closure_inv; simpl; auto using inv_init; lia.
Qed.

Lemma run_leader n g r fuel :
  handlers !! n = Some g → matches g = true → leads r (g_handler g event) →
  (∀ (m : nat) g', (m < n)%nat → handlers !! m = Some g' →
     matches g' = true → mute (g_handler g' event) = true) →
  lead (Z.of_nat n) r (run fuel) ∧
  ((enough ≤ fuel)%nat → sent (run fuel) ≠ []).
Proof.
  intros Hg Hm Hleads Hbefore.
  assert (Hbelow : mute_below (Z.of_nat n)).
  { intros m g' Hg' Hlt. apply (Hbefore m g'); auto. lia. }
  assert (Hat : leads_at (Z.of_nat n) r).
  { intros g' Hg'. rewrite Nat2Z.id, Hg in Hg'. by injection Hg' as <-. }
  destruct (run_lead (Z.of_nat n) r fuel ltac:(lia) Hbelow Hat) as [Hld Ho].
  split; [exact Hld|]. intros Hfuel Hnil.
  destruct (run_covers fuel Hfuel n g Hg) as [Hin _].
  unfold tested in Hin. apply list_elem_of_omap in Hin as (o & Hin & Heq).
  destruct o as [p' g'|p' g'|p' b]; simplify_eq.
  assert (Hseen : seen (Z.of_nat n) (trace (run fuel))) by (by exists g).
  specialize (Ho Hnil Hseen). rewrite (run_quiet fuel Hfuel) in Ho.
  by apply Exists_nil in Ho.
Qed.

(** ** Exactly once, for handlers that await their continuation *)















End Dispatch.

(** * The specification's properties, checked against the code *)

(** ** The chain driver *)

(** C1.  In a chain of three guarded handlers that all match the request and
    whose middle handler never calls its continuation, all three inner
    handlers run, whatever the first and the last handler do.  The third is
    tested only after the wrapper of the second has settled: it is reached
    by the driver, not by the second handler.  The driver frame of
    [next(index)], once the slot it awaited completes, always records
    [index] and calls [next(index + 1)()]: it looks neither at the value the
    wrapper returned nor at what the handler did. *)
Theorem three_handlers_all_run patternTest event route0 g0 g1 g2 fuel :
  matches patternTest event g0 = true →
  matches patternTest event g1 = true →
  matches patternTest event g2 = true →
  no_next (g_handler g1 event) →
  (enough event [g0; g1; g2] ≤ fuel)%nat →
  let st := run patternTest event [g0; g1; g2] route0 fuel in
  queue st = [] ∧
  (0, g0) ∈ invoked st ∧ (1, g1) ∈ invoked st ∧ (2, g2) ∈ invoked st ∧
  (∀ l1 g l2, trace st = l1 ++ Tested 2 g :: l2 → returned 1 l1) ∧
  ∀ handlers index k st',
    fire patternTest event handlers (KNext index k) st' =
    settle k (call_next patternTest event
                (handlers_from handlers (index + 1)) (index + 1)
                (set_used (union {[index]}) st')).
Proof.
  intros H0 H1 H2 Hquiet Hfuel st.
  pose proof (run_covers patternTest event [g0; g1; g2] route0 fuel Hfuel) as Hc.
  split; [by apply run_quiet|].
  destruct (Hc 0%nat g0 eq_refl) as [_ Hi0].
  destruct (Hc 1%nat g1 eq_refl) as [_ Hi1].
  destruct (Hc 2%nat g2 eq_refl) as [_ Hi2].
  split; [by apply Hi0|]. split; [by apply Hi1|]. split; [by apply Hi2|].
  split; [|intros; reflexivity].
  assert (Hslot : slot_inv 1 st).
  { apply (run_slot patternTest event [g0; g1; g2] route0 1); [|lia].
    intros g Hg. simpl in Hg. by injection Hg as <-. }
  destruct Hslot as [Htrace _ _]. exact Htrace.
Qed.

Lemma three_handlers_all_run_witness :
  let st := run URLPattern_test GET_hello
              [Middleware "ANY" "/*" passes_on; Middleware "GET" "/*" logs;
               Middleware "GET" "/hello" answers] "" 40 in
  queue st = [] ∧
  (0, Middleware "ANY" "/*" passes_on) ∈ invoked st ∧
  (1, Middleware "GET" "/*" logs) ∈ invoked st ∧
  (2, Middleware "GET" "/hello" answers) ∈ invoked st.
Proof.
  pose proof (three_handlers_all_run URLPattern_test GET_hello ""
    (Middleware "ANY" "/*" passes_on) (Middleware "GET" "/*" logs)
    (Middleware "GET" "/hello" answers) 40 eq_refl eq_refl eq_refl) as H.
  simpl in H. destruct H as (Hq & H0 & H1 & H2 & _).
  - intros a Ha. by apply elem_of_nil in Ha.
  - vm_compute. lia.
  - auto.
Defined.

(** C2.  The chain does not invoke each matching handler exactly once.  With
    a middleware that calls [next()] without awaiting it and a listener that
    awaits before it responds, both matching a GET of /hello, the listener
    at position 1 is tested and invoked twice: the driver frame of
    [next(-1)] resumes while the frame of [next(0)] still awaits the
    listener, finds 0 not yet in [used], and calls the listener again. *)
Theorem async_listener_runs_twice :
  let st := run URLPattern_test GET_hello (chain rerun_server) "" 20 in
  queue st = [] ∧
  map fst (tested st) = [0; 1; 1] ∧
  invoked st = [(0, Middleware "ANY" "/*" passes_on);
                (1, Middleware "GET" "/hello" answers_later);
                (1, Middleware "GET" "/hello" answers_later)] ∧
  sent st = [hello].
Proof. vm_compute. repeat split; reflexivity. Qed.

(** C3.  A continuation obtained when its position is already in [used], or
    when no handler follows, is a no-op; but a second call of a live
    continuation made before its position has been recorded runs the next
    handler again: [used.add(index)] comes only after the awaited handler
    has completed.  A middleware that calls [next()] twice in a row makes
    the listener behind it run twice. *)
Theorem second_call_runs_next_again :
  (∀ patternTest event hs index st,
     index ∈ used st ∨ hs = [] →
     call_next patternTest event hs index st = st) ∧
  let st := run URLPattern_test GET_hello (chain twice_server) "" 20 in
  queue st = [] ∧
  invoked st = [(0, Middleware "ANY" "/*" passes_on_twice);
                (1, Middleware "GET" "/hello" answers);
                (1, Middleware "GET" "/hello" answers)].
Proof.
  split.
  - intros patternTest event hs index st H. unfold call_next, next_is_noop.
    destruct H as [H| ->].
    + by rewrite bool_decide_eq_true_2.
    + by rewrite orb_true_r.
  - vm_compute. split; reflexivity.
Qed.

(** ** The wrapper *)



(** ** The response callback *)

(** C6.  Of any number of [respond] calls for one request only the first
    reaches [respondWith]; after it every further call leaves everything as
    it is.  In a dispatch, whatever the handlers do, at most one response is
    sent. *)
Theorem respond_first_wins route0 r rs :
  let st := foldl (λ st r', respond r' st) (init route0) (r :: rs) in
  sent st = [r] ∧ responded st = true ∧
  (∀ r', respond r' st = st) ∧
  ∀ patternTest event handlers fuel,
    (length (sent (run patternTest event handlers route0 fuel)) ≤ 1)%nat.
Proof.
  assert (Hfix : ∀ l st, responded st = true →
                         foldl (λ st r', respond r' st) st l = st).
  { induction l as [|x l IH]; intros st Hst; simpl; auto.
    unfold respond at 2. rewrite Hst. auto. }
  intros st. unfold st. simpl. rewrite Hfix by reflexivity.
  repeat split.
  intros patternTest event handlers fuel.
  pose proof (inv_sent _ _ _ _ _ (run_inv patternTest event handlers route0 fuel)) as H.
  rewrite H. destruct (responded _); lia.
Qed.

(** ** Registration *)

Lemma register_appends cwd CONTENT_TYPES fetch calls :
  ∀ s,
    middleware (foldl (register cwd CONTENT_TYPES fetch) s calls) =
      middleware s ++ flat_map (used_by cwd CONTENT_TYPES fetch) calls ∧
    listeners (foldl (register cwd CONTENT_TYPES fetch) s calls) =
      listeners s ++ flat_map listened_by calls.
Proof.
  induction calls as [|c calls IH]; intros s; simpl.
  - by rewrite !app_nil_r.
  - destruct (IH (register cwd CONTENT_TYPES fetch s c)) as [-> ->].
    destruct c as [route method hs|route method [hs|rs]|route root]; simpl;
      rewrite <- ?app_assoc, ?app_nil_r; auto.
Qed.

(** A test of a position comes after a test of each earlier position, and
    each test is of the handler registered at that position. *)
Lemma tested_after_earlier patternTest event handlers route0 fuel l1 p g l2 :
  trace (run patternTest event handlers route0 fuel) = l1 ++ Tested p g :: l2 →
  ∀ (q : nat) m, (q < Z.to_nat p)%nat → handlers !! q = Some m →
    Tested (Z.of_nat q) m ∈ l1.
Proof.
  intros Heq q m Hq Hm.
  pose proof (inv_trace _ _ _ _ _ (run_inv patternTest event handlers route0 fuel))
    as Hok.
  destruct (Hok l1 p g l2 Heq) as (Hp & _ & Hprev & _).
  destruct (Hprev (Z.of_nat q)) as [m' Hin]; [lia|].
  apply list_elem_of_split in Hin as Hsplit. destruct Hsplit as (la & lb & ->).
  rewrite <- app_assoc in Heq. simpl in Heq.
  destruct (Hok la (Z.of_nat q) m' _ Heq) as (_ & Hlk & _).
  rewrite Nat2Z.id, Hm in Hlk. by injection Hlk as ->.
Qed.

(** C7.  However the calls of [use], [static] and [on] are interleaved, the
    chain of a request is the handlers registered as middleware, in their
    order, followed by the handlers registered by [on], in theirs; and in a
    dispatch a test of a listener comes only after every middleware handler
    has been tested. *)
Theorem middleware_tested_before_listeners
    cwd CONTENT_TYPES fetch calls patternTest event route0 fuel :
  let s := foldl (register cwd CONTENT_TYPES fetch) new_server calls in
  chain s = flat_map (used_by cwd CONTENT_TYPES fetch) calls ++
            flat_map listened_by calls ∧
  middleware s = flat_map (used_by cwd CONTENT_TYPES fetch) calls ∧
  ∀ l1 p g l2,
    trace (run patternTest event (chain s) route0 fuel) =
      l1 ++ Tested p g :: l2 →
    (length (middleware s) ≤ Z.to_nat p)%nat →
    ∀ (q : nat) m, middleware s !! q = Some m → Tested (Z.of_nat q) m ∈ l1.
Proof.
  intros s.
  destruct (register_appends cwd CONTENT_TYPES fetch calls new_server)
    as [Hm Hl]. simpl in Hm, Hl. fold s in Hm, Hl.
  repeat split.
  - unfold chain. by rewrite Hm, Hl.
  - done.
  - intros l1 p g l2 Heq Hp q m Hq.
    eapply tested_after_earlier; eauto.
    + apply lookup_lt_Some in Hq. lia.
    + unfold chain. by apply lookup_app_l_Some.
Qed.

(** ** The two-handler scenario *)

Lemma trace_ok_prefix handlers l o : trace_ok handlers (l ++ [o]) → trace_ok handlers l.
Proof.
  intros H l1 p g l2 Heq. apply (H l1 p g (l2 ++ [o])).
  rewrite Heq, <- app_assoc. reflexivity.
Qed.

(** The tests of a dispatch start with position 0, which is tested once. *)
Lemma tested_shape handlers l :
  trace_ok handlers l →
  let T := omap (λ o, match o with Tested p g => Some (p, g) | _ => None end) l in
  T = [] ∨
  ∃ g rest, T = (0, g) :: rest ∧ handlers !! 0%nat = Some g ∧
            Forall (λ pg, 0 < pg.1 ∧ handlers !! Z.to_nat pg.1 = Some pg.2) rest.
Proof.
  induction l as [|o l IH] using rev_ind; intros Hok; simpl; [by left|].
  specialize (IH (trace_ok_prefix _ _ _ Hok)). simpl in IH.
  rewrite omap_app. simpl.
  destruct o as [p g|p g|p b]; simpl; rewrite ?app_nil_r; auto.
  destruct (Hok l p g [] eq_refl) as (Hp & Hlk & Hprev & Hzero).
  destruct IH as [Hnil|(g0 & rest & HT & Hg0 & Hrest)].
  - right. exists g, []. rewrite Hnil. simpl.
    assert (p = 0) as ->.
    { destruct (decide (p = 0)); auto.
      destruct (Hprev 0) as [g' Hin]; [lia|].
      assert (Hmem : (0, g') ∈
        omap (λ o, match o with Tested p g => Some (p, g) | _ => None end) l).
      { apply list_elem_of_omap. exists (Tested 0 g'). auto. }
      rewrite Hnil in Hmem. by apply elem_of_nil in Hmem. }
    auto.
  - right. exists g0, (rest ++ [(p, g)]). rewrite HT. simpl.
    repeat split; auto. apply Forall_app. split; auto.
    apply Forall_singleton. simpl. split; auto.
    destruct (decide (p = 0)) as [->|]; [|lia].
    rewrite Hzero in HT by reflexivity. discriminate.
Qed.

Lemma filter_all {A} (P : A → Prop) `{!∀ x, Decision (P x)} (l : list A) :
  Forall P l → filter P l = l.
Proof.
  induction 1 as [|x l Hx Hl IH]; [reflexivity|].
  by rewrite filter_cons_True, IH.
Qed.

Lemma filter_none {A} (P : A → Prop) `{!∀ x, Decision (P x)} (l : list A) :
  Forall (λ x, ¬ P x) l → filter P l = [].
Proof.
  induction 1 as [|x l Hx Hl IH]; [reflexivity|].
  by rewrite filter_cons_False.
Qed.

Lemma two_handlers_tested patternTest event g0 g1 route0 fuel :
  (enough event [g0; g1] ≤ fuel)%nat →
  ∃ n, tested (run patternTest event [g0; g1] route0 fuel) =
       (0, g0) :: replicate (S n) (1, g1).
Proof.
  intros Hfuel.
  pose proof (run_inv patternTest event [g0; g1] route0 fuel) as Hinv.
  pose proof (run_covers patternTest event [g0; g1] route0 fuel Hfuel) as Hc.
  destruct (Hc 1%nat g1 eq_refl) as [Hin1 _].
  destruct (tested_shape _ _ (inv_trace _ _ _ _ _ Hinv))
    as [Hnil|(g & rest & HT & Hg & Hrest)];
    fold (tested (run patternTest event [g0; g1] route0 fuel)) in *.
  - rewrite Hnil in Hin1. by apply elem_of_nil in Hin1.
  - simpl in Hg. injection Hg as <-.
    assert (Hrep : rest = replicate (length rest) (1, g1)).
    { clear -Hrest. induction rest as [|[p g] rest IH]; simpl; auto.
      apply Forall_cons in Hrest as [[Hp Hlk] Hrest]. simpl in *.
      rewrite <- IH by auto. f_equal.
      destruct (Z.to_nat p) as [|[|n]] eqn:Hn; simpl in Hlk; try discriminate;
        try lia.
      injection Hlk as <-. f_equal. lia. }
    destruct rest as [|x rest].
    + rewrite HT in Hin1. apply elem_of_cons in Hin1 as [Heq|Hin1];
        [discriminate|by apply elem_of_nil in Hin1].
    + exists (length rest). rewrite HT, Hrep. reflexivity.
Qed.

(** C8, as the spec states it: with the middleware on the route "/", a GET
    of /hello does not run [logHandler] (the pattern "/" matches the path "/"
    only), and a POST of /hello runs nothing. *)
Lemma root_route_misses_hello :
  invoked (run URLPattern_test GET_hello
             (chain (hello_server "/" logs answers)) "" 20)
    = [(1, Middleware "GET" "/hello" answers)] ∧
  invoked (run URLPattern_test POST_hello
             (chain (hello_server "/" logs answers)) "" 20) = [].
Proof. vm_compute. split; reflexivity. Qed.

(** C8, amended.  With the middleware on the route "/*": a GET of /hello runs
    [logHandler] once, first, and then [helloHandler], at least once and
    nothing else; a POST of /hello runs [logHandler] only, once.  When both
    handlers run to completion without awaiting and call [next] at most
    once, the GET runs [helloHandler] exactly once. *)
Theorem log_then_hello logHandler helloHandler route0 fuel :
  let s := hello_server "/*" logHandler helloHandler in
  let log := Middleware "ANY" "/*" logHandler in
  let hello := Middleware "GET" "/hello" helloHandler in
  (enough GET_hello (chain s) ≤ fuel)%nat →
  (enough POST_hello (chain s) ≤ fuel)%nat →
  chain s = [log; hello] ∧
  (∃ n, invoked (run URLPattern_test GET_hello (chain s) route0 fuel) =
        (0, log) :: replicate (S n) (1, hello)) ∧
  invoked (run URLPattern_test POST_hello (chain s) route0 fuel) = [(0, log)] ∧
  (well_behaved (logHandler GET_hello) = true →
   well_behaved (helloHandler GET_hello) = true →
   invoked (run URLPattern_test GET_hello (chain s) route0 fuel) =
     [(0, log); (1, hello)]).
Proof.
  intros s log hello Hget Hpost.
  change (chain s) with [log; hello] in *. split; [reflexivity|].
  split; [|split].
  - destruct (two_handlers_tested URLPattern_test GET_hello log hello route0 fuel Hget)
      as [n Hn].
    exists n.
    rewrite (inv_invoked _ _ _ _ _
               (run_inv URLPattern_test GET_hello [log; hello] route0 fuel)).
    rewrite Hn. apply filter_all.
    apply Forall_cons. split; [reflexivity|].
    apply Forall_replicate. reflexivity.
  - destruct (two_handlers_tested URLPattern_test POST_hello log hello route0 fuel Hpost)
      as [n Hn].
    rewrite (inv_invoked _ _ _ _ _
               (run_inv URLPattern_test POST_hello [log; hello] route0 fuel)).
    rewrite Hn, filter_cons_True by reflexivity. f_equal.
    apply filter_none. apply Forall_replicate. simpl. discriminate.
  - intros Hlog Hhello.
    rewrite (inv_invoked _ _ _ _ _
               (run_inv URLPattern_test GET_hello [log; hello] route0 fuel)).
    rewrite (run_tested_once URLPattern_test GET_hello [log; hello] route0 fuel)
      by (auto; repeat constructor; assumption).
    reflexivity.
Qed.

Lemma log_then_hello_witness :
  invoked (run URLPattern_test GET_hello
             (chain (hello_server "/*" logs answers)) "" 20) =
    [(0, Middleware "ANY" "/*" logs); (1, Middleware "GET" "/hello" answers)] ∧
  invoked (run URLPattern_test POST_hello
             (chain (hello_server "/*" logs answers)) "" 20) =
    [(0, Middleware "ANY" "/*" logs)].
Proof.
  destruct (log_then_hello logs answers "" 20) as (_ & _ & Hpost & Hget).
  - vm_compute. lia.
  - vm_compute. lia.
  - split; [apply Hget; reflexivity|exact Hpost].
Defined.

(** ** The static file handler *)

Lemma split_on_cons sep s : ∃ h t, split_on sep s = h :: t.
Proof.
  destruct s as [|c s]; simpl; eauto.
  destruct (Ascii.eqb c sep); eauto.
  destruct (split_on sep s); eauto.
Qed.

Lemma split_on_app sep a b :
  split_on sep (a +:+ String sep b) = split_on sep a ++ split_on sep b.
Proof.
  induction a as [|c a IH]; simpl.
  - by rewrite Ascii.eqb_refl.
  - rewrite IH. destruct (Ascii.eqb c sep); [reflexivity|].
    destruct (split_on_cons sep a) as (h & t & ->). reflexivity.
Qed.

Lemma split_on_absent sep s : occurs sep s = false → split_on sep s = [s].
Proof.
  induction s as [|c s IH]; simpl; [reflexivity|].
  intros H. apply orb_false_iff in H as [Hc Hs].
  rewrite Hc, IH by assumption. reflexivity.
Qed.

Lemma at_last_split sep a b :
  occurs sep b = false → at_last (split_on sep (a +:+ String sep b)) = b.
Proof.
  intros Hb. rewrite split_on_app, (split_on_absent sep b) by assumption.
  unfold at_last. apply List.last_last.
Qed.

Lemma occurs_app c a b : occurs c (a +:+ b) = occurs c a || occurs c b.
Proof.
  induction a as [|c' a IH]; simpl; [reflexivity|].
  by rewrite IH, orb_assoc.
Qed.

(** C9.  [static(route, root)] registers one GET middleware on the
    normalised route.  Its handler reads the file the request maps to; when
    the read fails it answers with status 404 and no body, otherwise with
    the file's bytes and a content-type header; and when the request
    matches, that answer is the response of the dispatch. *)
Theorem static_answers_404_when_read_fails
    cwd CONTENT_TYPES fetch route root patternTest event route0 extra :
  let route' := static_route route in
  let handler := static_handler cwd CONTENT_TYPES fetch route' root in
  let s := static cwd CONTENT_TYPES fetch route root new_server in
  let path := static_path cwd route' root (ev_href event) in
  let r := static_response cwd CONTENT_TYPES fetch route' root (ev_href event) in
  chain s = [Middleware "GET" route' handler] ∧
  handler event = [Tick; Respond r] ∧
  (fetch path = None → r = mkResponse (Some 404) None []) ∧
  (∀ bytes, fetch path = Some bytes →
     r = mkResponse None (Some bytes)
           [("content-type", content_type CONTENT_TYPES path)]) ∧
  (matches patternTest event (Middleware "GET" route' handler) = true →
   let st := run patternTest event (chain s) route0
               (enough event (chain s) + extra) in
   queue st = [] ∧ sent st = [r]).
Proof.
  intros route' handler s path r.
  split; [reflexivity|]. split; [reflexivity|].
  split; [|split].
  - unfold r, static_response. fold path. by intros ->.
  - unfold r, static_response. fold path. by intros bytes ->.
  - intros Hm. change (chain s) with [Middleware "GET" route' handler].
    unfold run, call_next, next_is_noop. simpl.
    rewrite call_middleware_enter. unfold enter. rewrite !Hm.
    vm_compute. split; reflexivity.
Qed.

Lemma static_answers_404_when_read_fails_witness :
  let r := static_response "/srv" (λ _, None) (λ _, None) "/files/*" "public"
             "http://localhost:8080/files/readme.txt" in
  r = mkResponse (Some 404) None [] ∧
  sent (run URLPattern_test
          (mkEvent "GET" "http://localhost:8080/files/readme.txt")
          (chain (static "/srv" (λ _, None) (λ _, None) "/files" "public" new_server))
          "" 5) = [r].
Proof.
  destruct (static_answers_404_when_read_fails "/srv" (λ _, None) (λ _, None)
              "/files" "public" URLPattern_test
              (mkEvent "GET" "http://localhost:8080/files/readme.txt") "" 0)
    as (_ & _ & Hnone & _ & Hrun).
  split.
  - apply Hnone. reflexivity.
  - apply Hrun. reflexivity.
Defined.

(** C10.  The key of the content-type lookup is what follows the last "."
    of the last segment of the path; a last segment without a "." is the key
    as a whole.  The content type is what the table holds for that key, and
    "text/plain" when the table holds nothing for it; and it is the
    content-type header of the response the static handler sends for a file
    it could read. *)
Theorem content_type_key_is_extension CONTENT_TYPES dir stem ext name :
  occurs "/" stem = false → occurs "/" ext = false → occurs "." ext = false →
  occurs "/" name = false → occurs "." name = false →
  content_type_key (dir +:+ "/" +:+ stem +:+ "." +:+ ext) = ext ∧
  content_type_key (dir +:+ "/" +:+ name) = name ∧
  (∀ path, CONTENT_TYPES (content_type_key path) = None →
           content_type CONTENT_TYPES path = "text/plain") ∧
  (∀ path v, CONTENT_TYPES (content_type_key path) = Some v →
             content_type CONTENT_TYPES path = v) ∧
  content_type CONTENT_TYPES (dir +:+ "/" +:+ stem +:+ "." +:+ ext) =
    default "text/plain" (CONTENT_TYPES ext) ∧
  content_type CONTENT_TYPES (dir +:+ "/" +:+ name) =
    default "text/plain" (CONTENT_TYPES name) ∧
  (∀ cwd fetch route root href bytes,
     fetch (static_path cwd route root href) = Some bytes →
     res_headers (static_response cwd CONTENT_TYPES fetch route root href) =
       [("content-type",
         default "text/plain"
           (CONTENT_TYPES
              (content_type_key (static_path cwd route root href))))]).
Proof.
  intros Hstem Hext Hdot Hname Hndot.
  assert (Hkey : content_type_key (dir +:+ "/" +:+ stem +:+ "." +:+ ext) = ext).
  { unfold content_type_key.
    change ("/" +:+ stem +:+ "." +:+ ext)
      with (String "/" (stem +:+ String "." ext)).
    rewrite at_last_split, at_last_split; auto.
    rewrite occurs_app. simpl. by rewrite Hstem, Hext. }
  assert (Hwhole : content_type_key (dir +:+ "/" +:+ name) = name).
  { unfold content_type_key. change ("/" +:+ name) with (String "/" name).
    rewrite at_last_split by auto. by rewrite split_on_absent. }
  split; [exact Hkey|]. split; [exact Hwhole|].
  split; [|split; [|split; [|split]]].
  - intros path Hnone. unfold content_type. by rewrite Hnone.
  - intros path v Hsome. unfold content_type. by rewrite Hsome.
  - unfold content_type. by rewrite Hkey.
  - unfold content_type. by rewrite Hwhole.
  - intros cwd fetch route root href bytes Hread.
    unfold static_response. rewrite Hread. reflexivity.
Qed.

Lemma content_type_key_is_extension_witness :
  let table := λ key : string,
    if bool_decide (key = "gz") then Some "application/gzip" else None in
  content_type_key "file:///srv/public/archive.tar.gz" = "gz" ∧
  content_type_key "file:///srv/public/Makefile" = "Makefile" ∧
  content_type table "file:///srv/public/archive.tar.gz" = "application/gzip" ∧
  content_type table "file:///srv/public/Makefile" = "text/plain".
Proof.
  intros table.
  destruct (content_type_key_is_extension table
              "file:///srv/public" "archive.tar" "gz" "Makefile"
              eq_refl eq_refl eq_refl eq_refl eq_refl)
    as (H1 & H2 & H3 & H4 & H5 & H6 & _).
  split; [exact H1|]. split; [exact H2|]. split; [exact H5|exact H6].
Defined.

(** * Further properties of the code *)

(** ** Where exactly once holds *)

(** X1.  When every handler of the chain runs to completion without awaiting
    and calls [next] at most once, a dispatch tests every guarded handler exactly
    once, in registration order, and invokes exactly the matching ones, each
    once and in that order. *)
Theorem well_behaved_exactly_once patternTest event handlers route0 fuel :
  Forall (λ g, well_behaved (g_handler g event) = true) handlers →
  (enough event handlers ≤ fuel)%nat →
  let st := run patternTest event handlers route0 fuel in
  queue st = [] ∧
  tested st = numbered handlers ∧
  invoked st =
    filter (λ pg, matches patternTest event pg.2 = true) (numbered handlers).
Proof.
  intros Hwb Hfuel st.
  split; [by apply run_quiet|].
  assert (Ht : tested st = numbered handlers) by (by apply run_tested_once).
  split; [done|].
  rewrite <- Ht.
  apply (inv_invoked patternTest event handlers route0), run_inv.
Qed.

Lemma well_behaved_exactly_once_witness :
  let st := run URLPattern_test GET_hello (chain (hello_server "/*" passes_on answers)) "" 20 in
  tested st = [(0, Middleware "ANY" "/*" passes_on);
               (1, Middleware "GET" "/hello" answers)] ∧
  invoked st = [(0, Middleware "ANY" "/*" passes_on);
                (1, Middleware "GET" "/hello" answers)].
Proof.
  destruct (well_behaved_exactly_once URLPattern_test GET_hello
              (chain (hello_server "/*" passes_on answers)) "" 20)
    as (_ & Ht & Hi).
  - repeat constructor.
  - vm_compute. lia.
  - split; [exact Ht|exact Hi].
Defined.

(** ** What holds for every chain *)

Lemma drain_plus patternTest event handlers a :
  ∀ b st,
    drain patternTest event handlers (a + b) st =
    drain patternTest event handlers b (drain patternTest event handlers a st).
Proof.
  induction a as [|a IH]; intros b st; simpl; [reflexivity|].
  destruct (queue st) as [|t q] eqn:Hq; [|apply IH].
  destruct b; simpl; [reflexivity|]. by rewrite Hq.
Qed.

Lemma drain_at_rest patternTest event handlers fuel st :
  queue st = [] → drain patternTest event handlers fuel st = st.
Proof. intros Hq. destruct fuel; simpl; [reflexivity|]. by rewrite Hq. Qed.

(** X2.  Whatever the handlers do (respond, await, call [next] any number of
    times, await it or not), a dispatch comes to rest: after [enough] turns
    the microtask queue is empty and further turns change nothing.  By then
    every guarded handler of the chain has been tested at least once, every
    test was a test of the handler registered at that position, and the
    inner handlers that were invoked are those of the guarded handlers that
    match the request: each of them at least once, no other at all. *)
Theorem dispatch_comes_to_rest patternTest event handlers route0 fuel :
  (enough event handlers ≤ fuel)%nat →
  let st := run patternTest event handlers route0 fuel in
  queue st = [] ∧
  st = run patternTest event handlers route0 (enough event handlers) ∧
  (∀ (n : nat) g, handlers !! n = Some g →
     (Z.of_nat n, g) ∈ tested st ∧
     ((Z.of_nat n, g) ∈ invoked st ↔ matches patternTest event g = true)) ∧
  (∀ p g, (p, g) ∈ tested st → 0 ≤ p ∧ handlers !! Z.to_nat p = Some g) ∧
  (∀ p g, (p, g) ∈ invoked st → matches patternTest event g = true).
Proof.
  intros Hfuel st.
  pose proof (run_inv patternTest event handlers route0 fuel) as Hinv.
  fold st in Hinv.
  split; [by apply run_quiet|]. split; [|split; [|split]].
  - unfold st, run.
    replace fuel with (enough event handlers + (fuel - enough event handlers))%nat
      by lia.
    rewrite drain_plus. apply drain_at_rest.
    by apply (run_quiet patternTest event handlers route0).
  - by apply run_covers.
  - intros p g Hin. unfold tested in Hin.
    apply list_elem_of_omap in Hin as (o & Ho & Heq).
    destruct o as [p' g'|p' g'|p' b]; simplify_eq.
    apply list_elem_of_split in Ho as (l1 & l2 & Htr).
    destruct (inv_trace _ _ _ _ _ Hinv l1 p g l2 Htr) as (Hp & Hlk & _). auto.
  - intros p g Hin.
    rewrite (inv_invoked _ _ _ _ _ Hinv) in Hin.
    apply list_elem_of_filter in Hin as [Hm _]. exact Hm.
Qed.

Lemma dispatch_comes_to_rest_witness :
  let st := run URLPattern_test GET_hello (chain rerun_server) "" 30 in
  queue st = [] ∧
  st = run URLPattern_test GET_hello (chain rerun_server) ""
         (enough GET_hello (chain rerun_server)).
Proof.
  destruct (dispatch_comes_to_rest URLPattern_test GET_hello
              (chain rerun_server) "" 30) as (Hq & Hs & _).
  - vm_compute. lia.
  - split; [exact Hq|exact Hs].
Defined.

(** ** The file a static request maps to *)

Lemma split_on_join sep l :
  l ≠ [] → Forall (λ s, occurs sep s = false) l →
  split_on sep (join (String sep EmptyString) l) = l.
Proof.
  induction l as [|x l IH]; intros Hne Hl; [done|].
  apply Forall_cons in Hl as [Hx Hl].
  destruct l as [|y l].
  - simpl. by apply split_on_absent.
  - change (join (String sep EmptyString) (x :: y :: l))
      with (x +:+ String sep (join (String sep EmptyString) (y :: l))).
    rewrite split_on_app, (split_on_absent sep x) by assumption.
    rewrite IH by done. reflexivity.
Qed.

Lemma static_base_segments base :
  Forall (λ s, occurs "/" s = false ∧ s ≠ "" ∧ s ≠ "*") base →
  static_base ("/" +:+ join "/" (base ++ ["*"])) = base.
Proof.
  intros Hb. unfold static_base.
  change ("/" +:+ join "/" (base ++ ["*"]))
    with ("" +:+ String "/" (join "/" (base ++ ["*"]))).
  rewrite split_on_app, split_on_join.
  - simpl. rewrite filter_cons_False by (intros [_ H]; by apply H).
    rewrite filter_app, (filter_all _ base).
    + rewrite filter_cons_False by (intros [H _]; by apply H).
      by rewrite app_nil_r.
    + eapply Forall_impl; [exact Hb|]. simpl. intros s (_ & H1 & H2). auto.
  - by destruct base.
  - apply Forall_app. split.
    + eapply Forall_impl; [exact Hb|]. simpl. tauto.
    + by apply Forall_singleton.
Qed.

(** X3.  The handler of [static] drops from the request's path as many leading
    segments as the route has literal segments and resolves what remains
    under [Deno.cwd()] and [root]: on the route /b1/.../bn/* a request for
    /b1/.../bn/r1/.../rm reads the file cwd/root/r1/.../rm. *)
Theorem static_reads_remainder cwd root base rest href :
  Forall (λ s, occurs "/" s = false ∧ s ≠ "" ∧ s ≠ "*") base →
  Forall (λ s, occurs "/" s = false) rest →
  base ++ rest ≠ [] →
  pathname href = "/" +:+ join "/" (base ++ rest) →
  let route := "/" +:+ join "/" (base ++ ["*"]) in
  static_rest route (pathname href) = rest ∧
  static_path cwd route root href = "file://" +:+ join "/" ([cwd; root] ++ rest).
Proof.
  intros Hb Hr Hne Hp route.
  assert (Hrest : static_rest route (pathname href) = rest).
  { unfold static_rest, route. rewrite static_base_segments, Hp by assumption.
    change (strip_leading_slash ("/" +:+ join "/" (base ++ rest)))
      with (join "/" (base ++ rest)).
    rewrite split_on_join.
    - by rewrite drop_app_length.
    - assumption.
    - apply Forall_app. split; [|assumption].
      eapply Forall_impl; [exact Hb|]. simpl. tauto. }
  split; [exact Hrest|].
  unfold static_path. by rewrite Hrest.
Qed.

Lemma static_reads_remainder_witness :
  static_route "/files" = "/files/*" ∧
  static_path "/srv" (static_route "/files") "public"
    "http://localhost:8080/files/a/b.txt" = "file:///srv/public/a/b.txt".
Proof.
  split; [reflexivity|].
  apply (static_reads_remainder "/srv" "public" ["files"] ["a"; "b.txt"]
           "http://localhost:8080/files/a/b.txt").
  - repeat constructor; discriminate.
  - repeat constructor.
  - discriminate.
  - reflexivity.
Defined.

(** ** The order of the tests *)

(** X4.  Whatever the handlers do, the guarded handlers are first tested in
    chain order: a test of position [p] is a test of the handler registered
    at [p] and comes after a test of every earlier position; and the first
    guarded handler of the chain is tested first and never again. *)
Theorem first_tests_in_order patternTest event handlers route0 fuel :
  let st := run patternTest event handlers route0 fuel in
  (∀ l1 p g l2, trace st = l1 ++ Tested p g :: l2 →
     0 ≤ p ∧ handlers !! Z.to_nat p = Some g ∧
     ∀ (q : nat) m, (q < Z.to_nat p)%nat → handlers !! q = Some m →
       Tested (Z.of_nat q) m ∈ l1) ∧
  (tested st = [] ∨
   ∃ g rest, tested st = (0, g) :: rest ∧ handlers !! 0%nat = Some g ∧
             Forall (λ pg, 0 < pg.1) rest).
Proof.
  intros st.
  pose proof (run_inv patternTest event handlers route0 fuel) as Hinv.
  fold st in Hinv. split.
  - intros l1 p g l2 Heq.
    destruct (inv_trace _ _ _ _ _ Hinv l1 p g l2 Heq) as (Hp & Hlk & _).
    split; [exact Hp|]. split; [exact Hlk|].
    intros q m Hq Hm.
    by apply (tested_after_earlier patternTest event handlers route0 fuel
                l1 p g l2).
  - destruct (tested_shape _ _ (inv_trace _ _ _ _ _ Hinv))
      as [Hnil|(g & rest & HT & Hg & Hrest)]; [by left|].
    right. exists g, rest. split; [exact HT|]. split; [exact Hg|].
    eapply Forall_impl; [exact Hrest|]. simpl. tauto.
Qed.

(** ** Who answers a request *)

(** X5.  A response is only ever sent by a matching handler that calls
    [respond]: when no matching handler of the chain responds (in
    particular when no guarded handler matches the request, or the chain is
    empty), the dispatch never sends anything, however long it runs.  There
    is no fallback response. *)
Theorem unanswered_without_responder patternTest event handlers route0 fuel :
  Forall (λ g, matches patternTest event g = true →
               mute (g_handler g event) = true) handlers →
  let st := run patternTest event handlers route0 fuel in
  sent st = [] ∧ responded st = false.
Proof.
  intros Hmute st.
  pose proof (run_inv patternTest event handlers route0 fuel) as Hinv.
  fold st in Hinv.
  assert (Hbelow : mute_below patternTest event handlers
                     (Z.of_nat (length handlers))).
  { intros m g Hg _. apply (proj1 (Forall_lookup _ _) Hmute m g Hg). }
  assert (Hat : leads_at patternTest event handlers
                  (Z.of_nat (length handlers)) hello).
  { intros g Hg. rewrite Nat2Z.id in Hg. apply lookup_lt_Some in Hg. lia. }
  destruct (run_lead patternTest event handlers route0
              (Z.of_nat (length handlers)) hello fuel ltac:(lia) Hbelow Hat)
    as [Hld _].
  fold st in Hld.
  assert (Hsent : sent st = []).
  { destruct (sent_dec st) as [?|Hne]; [done|].
    destruct (ld_after _ _ _ Hld Hne) as [g Hg].
    apply list_elem_of_split in Hg as (l1 & l2 & Heq).
    destruct (inv_trace _ _ _ _ _ Hinv l1 _ g l2 Heq) as (_ & Hlk & _).
    rewrite Nat2Z.id in Hlk. apply lookup_lt_Some in Hlk. lia. }
  split; [exact Hsent|].
  pose proof (inv_sent _ _ _ _ _ Hinv) as Hlen. rewrite Hsent in Hlen.
  destruct (responded st); [discriminate|reflexivity].
Qed.

Lemma unanswered_without_responder_witness :
  let st := run URLPattern_test POST_hello
              (chain (hello_server "/*" passes_on answers)) "" 20 in
  sent st = [] ∧ responded st = false.
Proof.
  apply (unanswered_without_responder URLPattern_test POST_hello
           (chain (hello_server "/*" passes_on answers)) "" 20).
  repeat constructor. simpl. discriminate.
Defined.

(** X6.  The first responder wins, whatever the other handlers do.  When the
    first guarded handler of the chain that matches and has a [respond] in
    its script calls [respond(r)] before it calls [next] or responds with
    anything else (it may await other things first), the response of the
    dispatch is [r]: nothing else is ever sent, and once the dispatch has
    come to rest [r] has been sent. *)
Theorem first_responder_wins patternTest event handlers route0 n g r fuel :
  handlers !! n = Some g →
  matches patternTest event g = true →
  leads r (g_handler g event) →
  (∀ (m : nat) g', (m < n)%nat → handlers !! m = Some g' →
     matches patternTest event g' = true → mute (g_handler g' event) = true) →
  let st := run patternTest event handlers route0 fuel in
  (sent st = [] ∨ sent st = [r]) ∧
  ((enough event handlers ≤ fuel)%nat → sent st = [r]).
Proof.
  intros Hg Hm Hleads Hbefore st.
  destruct (run_leader patternTest event handlers route0 n g r fuel
              Hg Hm Hleads Hbefore) as [Hld Hrest].
  fold st in Hld, Hrest.
  split; [exact (ld_sent _ _ _ Hld)|].
  intros Hfuel. destruct (ld_sent _ _ _ Hld) as [Hnil|Hr]; [|exact Hr].
  by destruct (Hrest Hfuel).
Qed.

Lemma first_responder_wins_witness :
  sent (run URLPattern_test GET_hello
          [Middleware "ANY" "/*" passes_on_twice;
           Middleware "GET" "/hello" answers_later;
           Middleware "GET" "/*" answers] "" 40) = [hello].
Proof.
  apply (first_responder_wins URLPattern_test GET_hello
           [Middleware "ANY" "/*" passes_on_twice;
            Middleware "GET" "/hello" answers_later;
            Middleware "GET" "/*" answers] "" 1
           (Middleware "GET" "/hello" answers_later) hello 40);
    try reflexivity.
  - intros m g' Hlt Hg' _. destruct m as [|m]; [|lia].
    injection Hg' as <-. reflexivity.
  - vm_compute. lia.
Defined.

(** X7.  The response of [static] wins over everything registered after it.
    [static(route, root)] appends its handler to the middleware; and in a
    chain where no matching handler before it responds, a request that
    matches the static handler is answered with the file, or with status
    404 when the read fails, whatever the handlers behind it do. *)
Theorem static_response_wins
    cwd CONTENT_TYPES fetch route root s pre post patternTest event route0 fuel :
  let route' := static_route route in
  let g := Middleware "GET" route'
             (static_handler cwd CONTENT_TYPES fetch route' root) in
  middleware (static cwd CONTENT_TYPES fetch route root s) =
    middleware s ++ [g] ∧
  listeners (static cwd CONTENT_TYPES fetch route root s) = listeners s ∧
  (matches patternTest event g = true →
   Forall (λ m, matches patternTest event m = true →
                mute (g_handler m event) = true) pre →
   (enough event (pre ++ g :: post) ≤ fuel)%nat →
   sent (run patternTest event (pre ++ g :: post) route0 fuel) =
     [static_response cwd CONTENT_TYPES fetch route' root (ev_href event)]).
Proof.
  intros route' g. split; [reflexivity|]. split; [reflexivity|].
  intros Hm Hpre Hfuel.
  destruct (run_leader patternTest event (pre ++ g :: post) route0
              (length pre) g
              (static_response cwd CONTENT_TYPES fetch route' root
                 (ev_href event)) fuel) as [Hld Hrest].
  - by rewrite list_lookup_middle.
  - exact Hm.
  - simpl. reflexivity.
  - intros m g' Hlt Hg'. rewrite lookup_app_l in Hg' by done.
    apply (proj1 (Forall_lookup _ _) Hpre m g' Hg').
  - destruct (ld_sent _ _ _ Hld) as [Hnil|Hr]; [|exact Hr].
    by destruct (Hrest Hfuel).
Qed.

Lemma static_response_wins_witness :
  sent (run URLPattern_test
          (mkEvent "GET" "http://localhost:8080/files/readme.txt")
          ([Middleware "ANY" "/*" passes_on] ++
           Middleware "GET" (static_route "/files")
             (static_handler "/srv" (λ _, None) (λ _, None)
                (static_route "/files") "public")
           :: [Middleware "GET" "/*" answers]) "" 40) =
    [mkResponse (Some 404) None []].
Proof.
  destruct (static_response_wins "/srv" (λ _, None) (λ _, None) "/files"
              "public" new_server [Middleware "ANY" "/*" passes_on]
              [Middleware "GET" "/*" answers] URLPattern_test
              (mkEvent "GET" "http://localhost:8080/files/readme.txt") "" 40)
    as (_ & _ & Hwin).
  apply Hwin.
  - reflexivity.
  - repeat constructor.
  - vm_compute. lia.
Defined.

(** ** The route [static] serves on *)

Lemma collapse_tail s : ∃ p, collapse_slashes (s +:+ "/*") = p +:+ "/*".
Proof.
  induction s as [|c s IH]; [by exists EmptyString|].
  destruct IH as [p Hp].
  change (String c s +:+ "/*") with (String c (s +:+ "/*")).
  simpl. destruct (Ascii.eqb c "/").
  - destruct (s +:+ "/*") as [|c' s'] eqn:Hs.
    + destruct s; discriminate.
    + destruct (Ascii.eqb c' "/"); [by exists p|].
      exists (String c p). by rewrite Hp.
  - exists (String c p). by rewrite Hp.
Qed.

Lemma collapse_head s : ∃ q, collapse_slashes (String "/" s) = String "/" q.
Proof.
  induction s as [|c s IH]; [by exists EmptyString|].
  simpl. destruct (Ascii.eqb c "/") eqn:Hc.
  - apply Ascii.eqb_eq in Hc as ->. exact IH.
  - eauto.
Qed.

Lemma collapse_cons c s :
  collapse_slashes (String c s) =
  if Ascii.eqb c "/"
  then match s with
       | String c' _ =>
           if Ascii.eqb c' "/" then collapse_slashes s
           else String c (collapse_slashes s)
       | EmptyString => String c EmptyString
       end
  else String c (collapse_slashes s).
Proof. reflexivity. Qed.

Lemma double_slash_cons c c' s :
  double_slash (String c (String c' s)) =
  (Ascii.eqb c "/" && Ascii.eqb c' "/") || double_slash (String c' s).
Proof. reflexivity. Qed.

Lemma collapse_no_double s : double_slash (collapse_slashes s) = false.
Proof.
  induction s as [|c s IH]; [reflexivity|].
  rewrite collapse_cons. destruct (Ascii.eqb c "/") eqn:Hc.
  - destruct s as [|c' s']; [reflexivity|].
    destruct (Ascii.eqb c' "/") eqn:Hc'; [exact IH|].
    rewrite collapse_cons, Hc' in IH |- *.
    by rewrite double_slash_cons, Hc', andb_false_r.
  - destruct (collapse_slashes s) as [|c' s']; [reflexivity|].
    by rewrite double_slash_cons, Hc.
Qed.

Lemma collapse_fixed s : double_slash s = false → collapse_slashes s = s.
Proof.
  induction s as [|c s IH]; [reflexivity|].
  intros Hd. rewrite collapse_cons. destruct s as [|c' s'].
  - by destruct (Ascii.eqb c "/").
  - rewrite double_slash_cons in Hd.
    apply orb_false_iff in Hd as [Hcc Hd]. rewrite (IH Hd).
    destruct (Ascii.eqb c "/"), (Ascii.eqb c' "/"); done.
Qed.

Lemma list_ascii_app a b :
  String.list_ascii_of_string (a +:+ b) =
  String.list_ascii_of_string a ++ String.list_ascii_of_string b.
Proof. induction a as [|c a IH]; simpl; [reflexivity|]. by rewrite IH. Qed.

Lemma string_of_rev_rev s :
  String.string_of_list_ascii (rev (rev (String.list_ascii_of_string s))) = s.
Proof. by rewrite rev_involutive, String.string_of_list_ascii_of_string. Qed.

Lemma replace_tail_slash_star p : replace_tail (p +:+ "/*") = p +:+ "/*".
Proof.
  unfold replace_tail. rewrite list_ascii_app, rev_app_distr. simpl.
  by rewrite string_of_rev_rev.
Qed.

Lemma replace_tail_plain r :
  ends_plain r = true → replace_tail r = r +:+ "/*".
Proof.
  unfold ends_plain, replace_tail.
  destruct (rev (String.list_ascii_of_string r)) as [|c t] eqn:Hr.
  - intros _. rewrite <- Hr. by rewrite string_of_rev_rev.
  - intros Hc. apply andb_true_iff in Hc as [H1 H2].
    apply negb_true_iff in H1, H2.
    replace (match c with
             | "*"%char => match t with "/"%char :: t0 => t0 | _ => t end
             | "/"%char => t
             | _ => c :: t
             end) with (c :: t).
    + rewrite <- Hr. by rewrite string_of_rev_rev.
    + destruct c as [[] [] [] [] [] [] [] []]; try reflexivity; discriminate.
Qed.

Lemma replace_tail_star r :
  ends_plain r = true → replace_tail (r +:+ "*") = r +:+ "/*".
Proof.
  unfold ends_plain, replace_tail. rewrite list_ascii_app, rev_app_distr. simpl.
  destruct (rev (String.list_ascii_of_string r)) as [|c t] eqn:Hr.
  - intros _. rewrite <- Hr. by rewrite string_of_rev_rev.
  - intros Hc. apply andb_true_iff in Hc as [H1 _].
    apply negb_true_iff in H1.
    replace (match c with "/"%char => t | _ => c :: t end) with (c :: t).
    + rewrite <- Hr. by rewrite string_of_rev_rev.
    + destruct c as [[] [] [] [] [] [] [] []]; try reflexivity; discriminate.
Qed.

Lemma replace_tail_slash r : replace_tail (r +:+ "/") = r +:+ "/*".
Proof.
  unfold replace_tail. rewrite list_ascii_app, rev_app_distr. simpl.
  by rewrite string_of_rev_rev.
Qed.

(** X8.  Whatever route is given to [static], the route it registers starts
    with a slash, ends with the wildcard segment [/*] and has no two slashes
    in a row; and normalising is idempotent: a route that [static] has
    produced is registered unchanged. *)
Theorem static_route_normal_form route :
  (∃ q, static_route route = "/" +:+ q) ∧
  (∃ p, static_route route = p +:+ "/*") ∧
  double_slash (static_route route) = false ∧
  static_route (static_route route) = static_route route.
Proof.
  assert (Hhead : ∃ q, static_route route = "/" +:+ q).
  { unfold static_route. apply collapse_head. }
  assert (Htail : ∃ p, static_route route = p +:+ "/*").
  { unfold static_route, replace_tail.
    change ("/" +:+ ?a +:+ "/*") with (String "/" a +:+ "/*").
    apply collapse_tail. }
  assert (Hnd : double_slash (static_route route) = false).
  { unfold static_route. apply collapse_no_double. }
  split; [exact Hhead|]. split; [exact Htail|]. split; [exact Hnd|].
  destruct Hhead as [q Hq]. destruct Htail as [p Hp].
  unfold static_route at 1. rewrite Hp at 1.
  rewrite replace_tail_slash_star, <- Hp, Hq.
  change (collapse_slashes ("/" +:+ "/" +:+ q))
    with (collapse_slashes ("/" +:+ q)).
  rewrite <- Hq. by apply collapse_fixed.
Qed.

(** X9.  The trailing [/], [*] or [/*] of a route given to [static] is
    optional: for a route that is empty or ends with another character,
    [static(route)], [static(route + '/')], [static(route + '*')] and
    [static(route + '/*')] register the same route, the collapsed
    [/route/*]. *)
Theorem static_route_suffix_optional route :
  ends_plain route = true →
  static_route route = collapse_slashes ("/" +:+ route +:+ "/*") ∧
  static_route (route +:+ "/") = static_route route ∧
  static_route (route +:+ "*") = static_route route ∧
  static_route (route +:+ "/*") = static_route route.
Proof.
  intros Hplain. unfold static_route.
  rewrite replace_tail_slash, replace_tail_star, replace_tail_slash_star,
    replace_tail_plain by assumption.
  auto.
Qed.

Lemma static_route_suffix_optional_witness :
  static_route "/files" = "/files/*" ∧
  static_route "/files/" = "/files/*" ∧
  static_route "/files*" = "/files/*" ∧
  static_route "/files/*" = "/files/*".
Proof.
  destruct (static_route_suffix_optional "/files" eq_refl)
    as (H0 & H1 & H2 & H3).
  split; [reflexivity|].
  split; [etrans; [exact H1|reflexivity]|].
  split; [etrans; [exact H2|reflexivity]|].
  etrans; [exact H3|reflexivity].
Defined.

(** ** Awaiting the continuation *)



(** ** A handler that does not delegate *)

(** X11.  A handler that never calls its continuation holds the chain until
    it has completed: in any chain and whatever the other handlers do, the
    guarded handler behind it is tested only after its wrapper has settled
    (it is the chain driver that goes on, not the handler). *)
Theorem quiet_handler_blocks patternTest event handlers route0 P fuel :
  0 ≤ P →
  quiet_at event handlers P →
  ∀ l1 g l2,
    trace (run patternTest event handlers route0 fuel) =
      l1 ++ Tested (P + 1) g :: l2 →
    returned P l1.
Proof.
  intros HP Hquiet.
  pose proof (run_slot patternTest event handlers route0 P fuel Hquiet HP)
    as Hslot.
  destruct Hslot as [Htrace _ _]. exact Htrace.
Qed.

Lemma quiet_handler_blocks_witness :
  let hs := [Middleware "ANY" "/*" passes_on_twice;
             Middleware "GET" "/*" answers_later;
             Middleware "GET" "/hello" answers] in
  ∃ l1 l2,
    trace (run URLPattern_test GET_hello hs "" 40) =
      l1 ++ Tested 2 (Middleware "GET" "/hello" answers) :: l2 ∧
    returned 1 l1.
Proof.
  intros hs.
  assert (Hin : Tested 2 (Middleware "GET" "/hello" answers) ∈
                trace (run URLPattern_test GET_hello hs "" 40)).
  { vm_compute. repeat constructor. }
  apply list_elem_of_split in Hin as (l1 & l2 & Heq).
  exists l1, l2. split; [exact Heq|].
  apply (quiet_handler_blocks URLPattern_test GET_hello hs "" 1 40
           ltac:(lia)) with (g := Middleware "GET" "/hello" answers) (l2 := l2);
    [|exact Heq].
  intros g Hg. injection Hg as <-. intros a Ha.
  apply elem_of_cons in Ha as [->|Ha]; [done|].
  apply list_elem_of_singleton in Ha as ->. done.
Defined.

